(** * js-functions: map, filter and reduce over std::vector

    A shallow embedding of [src/js-functions.cpp] (namespace [JS] and the
    demonstration in [main]) together with the properties its specification
    states about it.

    Conventions of the embedding.
    - A [std::vector<T>] is a [list T]; [push_back] appends at the end.
    - An [int] is a [Z] in [[INT_MIN, INT_MAX]] and a [size_t] a [Z] in
      [[0, 2^64)].  Signed overflow, an access outside a vector and the read
      of an indeterminate value are undefined behaviour in C++: the embedding
      ends the run there with a [fault].  A call that instantiates a template
      whose body is ill-formed has no run at all: it ends with the fault
      [IllFormed] before anything is done.
    - A callback ([std::function]) is a total function of its arguments.
    - Every operation yields a [run]: the caller's vector as it is when the
      operation ends, the argument tuples the callback was invoked with, in
      order of invocation, and how the operation ended. *)

From Equations Require Import Equations.
From Stdlib Require Import String Ascii DecimalString Floats.
From Stdlib Require Import List ZArith Lia Bool Sorted.
Import ListNotations.

Set Implicit Arguments.
Local Open Scope Z_scope.

(** ** Undefined behaviour and results *)

Inductive fault : Type :=
| OutOfRange          (* element access outside [0, size) *)
| SignedOverflow      (* int arithmetic leaving [INT_MIN, INT_MAX] *)
| IndeterminateRead   (* read of an object that holds no value yet *)
| IllFormed.          (* the call instantiates an ill-formed template body *)

Inductive outcome (R : Type) : Type :=
| Returns (r : R)
| Undefined (f : fault).
Arguments Returns {R} r.
Arguments Undefined {R} f.

Definition bind {A B : Type} (m : outcome A) (k : A -> outcome B) : outcome B :=
  match m with
  | Returns a => k a
  | Undefined f => Undefined f
  end.

Declare Scope outcome_scope.
Delimit Scope outcome_scope with outcome.
Notation "'let*' x ':=' m 'in' k" := (bind m (fun x => k))
  (at level 10, x name, m at level 100, k at level 200) : outcome_scope.

(** What the storage of a variable holds.  A declaration without
    initializer, such as [Product result;], default-initializes: an object
    of scalar type is left indeterminate, an object of class type is built
    by its default constructor. *)
Inductive storage (T : Type) : Type :=
| indeterminate
| holds (v : T).
Arguments indeterminate {T}.
Arguments holds {T} v.

(** Reading a variable (lvalue-to-rvalue conversion). *)
Definition load {T : Type} (s : storage T) : outcome T :=
  match s with
  | holds v => Returns v
  | indeterminate => Undefined IndeterminateRead
  end.

(** Default-initialization of a C++ type. *)
Class DefaultInit (T : Type) : Type := default_init : storage T.

(** ** Machine integers *)

(** [int] has 32 bits and [size_t] 64 on the LP64 and LLP64 platforms. *)
Definition INT_MAX : Z := 2147483647.
Definition SIZE_WIDTH : Z := 64.

(** Conversion of an [int] to [size_t], as the comparison
    [idx < values.size()] and the subscript [values[idx]] perform it. *)
Definition size_t_of_int (i : Z) : Z := i mod 2 ^ SIZE_WIDTH.

(** ** Runs *)

Record run (Item Call R : Type) : Type := Run {
  vector_after : list Item;
  invocations : list Call;
  ending : outcome R
}.
Arguments Run {Item Call R} _ _ _.

Definition inspect {A : Type} (a : A) : {b : A | a = b} := exist _ a eq_refl.

(** ** namespace JS *)

Module JS.

Section Vector.
Context {Item : Type}.

(** [values.size()] *)
Definition size (values : list Item) : Z := Z.of_nat (length values).

(** [values[pos]] for [pos] of type [size_t] *)
Definition at_ (values : list Item) (pos : Z) : outcome Item :=
  match nth_error values (Z.to_nat pos) with
  | Some item => Returns item
  | None => Undefined OutOfRange
  end.

End Vector.

Section Map.
Context {Item Product : Type}.

(** The [for] loop of the index-aware [map], from the state in which
    control reaches the test [idx < values.size()]; [idx++] overflows at
    [INT_MAX]. *)
Equations? map_indexed_loop (converter : Item -> Z -> Product)
    (values : list Item) (idx : Z) (result : list Product)
    (calls : list (Item * Z)) : run Item (Item * Z) (list Product)
    by wf (Z.to_nat (size values - idx)) lt :=
  map_indexed_loop converter values idx result calls
    with inspect (size_t_of_int idx <? size values) := {
    | exist _ false _ := Run values calls (Returns result)
    | exist _ true Hlt with at_ values (size_t_of_int idx) := {
      | Undefined f := Run values calls (Undefined f)
      | Returns item with inspect (idx <? INT_MAX) := {
        | exist _ false _ :=
            Run values (calls ++ [(item, idx)]) (Undefined SignedOverflow)
        | exist _ true Hok :=
            map_indexed_loop converter values (idx + 1)
              (result ++ [converter item idx]) (calls ++ [(item, idx)]) } } }.
Proof.
  apply Z.ltb_lt in Hlt, Hok. unfold size_t_of_int, INT_MAX, SIZE_WIDTH in *.
  destruct (Z_lt_le_dec idx 0) as [Hneg | Hpos].
  - unfold size in *. lia.
  - rewrite Z.mod_small in Hlt by lia. lia.
Qed.

(** [JS::map], index-aware overload. *)
Definition map_indexed (values : list Item) (converter : Item -> Z -> Product)
  : run Item (Item * Z) (list Product) :=
  map_indexed_loop converter values 0 [] [].

(** [JS::map], element-only overload.  Its body is
    [for (Item& item : values) result.push_back(converter(item));] with
    [values] a [const std::vector<Item>&]: the loop variable, a reference to
    non-const, cannot bind to an element of the const vector.  The body is
    ill-formed for every [Item], so no program contains a call of this
    overload ([main] has none): it makes no call of the converter and
    returns nothing. *)
Definition map (values : list Item) (converter : Item -> Product)
  : run Item Item (list Product) :=
  Run values [] (Undefined IllFormed).

End Map.

Section Filter.
Context {Item : Type}.

(** The range-for loop of the element-only [filter]. *)
Fixpoint filter_loop (condition : Item -> bool) (values remaining : list Item)
    (result : list Item) (calls : list Item) : run Item Item (list Item) :=
  match remaining with
  | [] => Run values calls (Returns result)
  | value :: rest =>
      if Bool.eqb (condition value) true
      then filter_loop condition values rest (result ++ [value]) (calls ++ [value])
      else filter_loop condition values rest result (calls ++ [value])
  end.

(** [JS::filter], element-only overload. *)
Definition filter (values : list Item) (condition : Item -> bool)
  : run Item Item (list Item) :=
  filter_loop condition values values [] [].

(** The [for] loop of the index-aware [filter].  The body reads
    [values[idx]] once for the call of [condition] and once more for
    [push_back]. *)
Equations? filter_indexed_loop (condition : Item -> Z -> bool)
    (values : list Item) (idx : Z) (result : list Item)
    (calls : list (Item * Z)) : run Item (Item * Z) (list Item)
    by wf (Z.to_nat (size values - idx)) lt :=
  filter_indexed_loop condition values idx result calls
    with inspect (size_t_of_int idx <? size values) := {
    | exist _ false _ := Run values calls (Returns result)
    | exist _ true Hlt with at_ values (size_t_of_int idx) := {
      | Undefined f := Run values calls (Undefined f)
      | Returns item
          with (if Bool.eqb (condition item idx) true
                then let* kept := at_ values (size_t_of_int idx) in
                     Returns (result ++ [kept])
                else Returns result)%outcome := {
        | Undefined f := Run values (calls ++ [(item, idx)]) (Undefined f)
        | Returns result' with inspect (idx <? INT_MAX) := {
          | exist _ false _ :=
              Run values (calls ++ [(item, idx)]) (Undefined SignedOverflow)
          | exist _ true Hok :=
              filter_indexed_loop condition values (idx + 1) result'
                (calls ++ [(item, idx)]) } } } }.
Proof.
  apply Z.ltb_lt in Hlt, Hok. unfold size_t_of_int, INT_MAX, SIZE_WIDTH in *.
  destruct (Z_lt_le_dec idx 0) as [Hneg | Hpos].
  - unfold size in *. lia.
  - rewrite Z.mod_small in Hlt by lia. lia.
Qed.

(** [JS::filter], index-aware overload. *)
Definition filter_indexed (values : list Item) (condition : Item -> Z -> bool)
  : run Item (Item * Z) (list Item) :=
  filter_indexed_loop condition values 0 [] [].

End Filter.

Section Reduce.
Context {Item Product : Type} {Product_init : DefaultInit Product}.

(** A [std::function<Product(Product&, const Item&)>]: from what the
    referenced accumulator holds and the element, what the call leaves in
    the accumulator together with the value it returns; [None] when the call
    reads the accumulator while it holds no value. *)
Definition reducer_fn : Type :=
  storage Product -> Item -> option (storage Product * Product).

(** The range-for loop of [reduce] and the final [return result].  The
    assignment [result = reducer(result, value)] stores the returned value
    over whatever the call left in [result]. *)
Fixpoint reduce_loop (reducer : reducer_fn) (values remaining : list Item)
    (result : storage Product) (calls : list (storage Product * Item))
  : run Item (storage Product * Item) Product :=
  match remaining with
  | [] => Run values calls (load result)
  | value :: rest =>
      match reducer result value with
      | None =>
          Run values (calls ++ [(result, value)]) (Undefined IndeterminateRead)
      | Some (_, returned) =>
          reduce_loop reducer values rest (holds returned)
            (calls ++ [(result, value)])
      end
  end.

(** [JS::reduce]: [Product result;] default-initializes the accumulator. *)
Definition reduce (values : list Item) (reducer : reducer_fn)
  : run Item (storage Product * Item) Product :=
  reduce_loop reducer values values default_init [].

(** The [std::function] made from a callable that takes the accumulator by
    value, as the lambda in [main] does: the call copies the accumulator,
    which reads it, and leaves it as it was. *)
Definition by_value (f : Product -> Item -> Product) : reducer_fn :=
  fun result value =>
    match result with
    | holds accumulator => Some (result, f accumulator value)
    | indeterminate => None
    end.

End Reduce.

End JS.

(** ** The demonstration program *)

(** [double]: IEEE 754 binary64. *)
Definition double : Type := float.

(** Conversion of an integer to [double]; exact below [2^53]. *)
Definition double_of_int (i : Z) : double :=
  if i <? 0 then PrimFloat.opp (PrimFloat.of_uint63 (Uint63.of_Z (- i)))
  else PrimFloat.of_uint63 (Uint63.of_Z i).

(** A [double] is a scalar: declared without initializer it is indeterminate. *)
#[export] Instance double_DefaultInit : DefaultInit double := indeterminate.

(** [std::string] has a default constructor: the empty string. *)
#[export] Instance string_DefaultInit : DefaultInit string := holds EmptyString.

(** [std::to_string(int)] *)
Definition to_string (i : Z) : string := NilZero.string_of_int (Z.to_int i).

Record Person : Type := mkPerson {
  firstName : string;
  lastName : string;
  age : Z
}.

(** [main], without the printing: the vectors and numbers it computes. *)
Module Main.

Local Open Scope string_scope.
Local Open Scope outcome_scope.

Definition people : list Person :=
  [ mkPerson "Butter" "Riolu" 22;
    mkPerson "Farmer" "Joes" 21;
    mkPerson "Juke" "Duke" 21;
    mkPerson "Life" "Happens" 24;
    mkPerson "Looped" "Needs Help" 18;
    mkPerson "Land" "Woof" 21 ].

Definition canDrinkAlcohol : outcome (list Person) :=
  ending (JS.filter people (fun dude => (age dude >=? 21)%Z)).

Definition everyEvenPerson : outcome (list Person) :=
  let* canDrinkAlcohol := canDrinkAlcohol in
  ending (JS.filter_indexed canDrinkAlcohol
            (fun dude idx => (Z.rem idx 2 =? 0)%Z)).

Definition names : outcome (list string) :=
  let* everyEvenPerson := everyEvenPerson in
  ending (JS.map_indexed everyEvenPerson
            (fun dude idx =>
               (* idx + 1 stays an int: map hands out indices below
                  values.size() and overflows itself at INT_MAX *)
               let position := to_string (idx + 1) in
               position ++ ". " ++ firstName dude ++ " " ++ lastName dude)).

(** The lambda handed to [reduce]. *)
Definition add_age (totalAge : double) (dude : Person) : double :=
  PrimFloat.add totalAge (double_of_int (age dude)).

Definition totalAge : outcome double :=
  ending (JS.reduce people (JS.by_value add_age)).

Definition averageAge : outcome double :=
  let* totalAge := totalAge in
  Returns (PrimFloat.div totalAge (double_of_int (JS.size people))).

End Main.

(** The three calls by which [main] computes [names], on any queue of
    people. *)
Definition queue_names (people : list Person) : outcome (list string) :=
  (let* canDrinkAlcohol :=
     ending (JS.filter people (fun dude => (age dude >=? 21)%Z)) in
   let* everyEvenPerson :=
     ending (JS.filter_indexed canDrinkAlcohol
               (fun dude idx => (Z.rem idx 2 =? 0)%Z)) in
   ending (JS.map_indexed everyEvenPerson
             (fun dude idx =>
                let position := to_string (idx + 1) in
                position ++ ". " ++ firstName dude ++ " " ++ lastName dude)%string)
  )%outcome.

(** ** Reference notions the properties are stated with *)

Section Reference.
Context {Item Product : Type} {Product_init : DefaultInit Product}.

(** The elements of a vector paired with their positions, counted from
    [start]. *)
Fixpoint enumerate_from (start : Z) (values : list Item) : list (Item * Z) :=
  match values with
  | [] => []
  | item :: rest => (item, start) :: enumerate_from (start + 1) rest
  end.

Definition apply2 {A B C : Type} (f : A -> B -> C) (p : A * B) : C :=
  f (fst p) (snd p).

(** [kept] consists of exactly the elements of [values] at the positions
    where [keep] holds, in ascending order of position. *)
Definition selection (keep : Item -> Z -> bool) (values kept : list Item)
  : Prop :=
  exists positions : list Z,
    StronglySorted Z.lt positions /\
    (forall k, In k positions <->
               exists item, 0 <= k /\
                            nth_error values (Z.to_nat k) = Some item /\
                            keep item k = true) /\
    Forall2 (fun k item => nth_error values (Z.to_nat k) = Some item)
      positions kept.

(** One step [accumulator <- reducer(accumulator, element)] of a left fold
    whose accumulator may already be lost to undefined behaviour. *)
Definition reduce_step (reducer : @JS.reducer_fn Item Product)
    (accumulator : outcome (storage Product)) (value : Item)
  : outcome (storage Product) :=
  bind accumulator (fun result =>
    match reducer result value with
    | Some (_, returned) => Returns (holds returned)
    | None => Undefined IndeterminateRead
    end).

(** The formulation the specification recommends for [reduce]: a pure left
    fold of a function that returns the new accumulator, started from the
    default-initialized accumulator. *)
Definition reduce_pure (f : Product -> Item -> Product) (values : list Item)
  : outcome Product :=
  bind (load default_init) (fun seed => Returns (fold_left f values seed)).

(** [reducer] has returns-new-accumulator semantics [f]: it computes its
    result from the value of the accumulator, which it therefore reads, and
    from the element; what it leaves in the referenced accumulator is
    immaterial. *)
Definition returns_new_accumulator (reducer : @JS.reducer_fn Item Product)
    (f : Product -> Item -> Product) : Prop :=
  forall value,
    reducer indeterminate value = None /\
    forall accumulator, exists left_behind,
      reducer (holds accumulator) value =
      Some (left_behind, f accumulator value).

End Reference.

(** A reducer on [std::string] that appends to the accumulator through the
    reference and returns a copy of it. *)
Definition append_in_place : @JS.reducer_fn string string :=
  fun result value =>
    match result with
    | holds accumulator =>
        Some (holds (accumulator ++ value)%string, (accumulator ++ value)%string)
    | indeterminate => None
    end.

(** Two [std::vector<char>], of [INT_MAX + 1] and of [INT_MAX + 2] elements. *)
Definition oversized : list ascii := repeat "a"%char (Z.to_nat (INT_MAX + 1)).
Definition beyond_int : list ascii := repeat "a"%char (Z.to_nat (INT_MAX + 2)).

(** ** Printing *)

(** What [out << item] writes for an item, under the stream's default
    formatting. *)
Class Insertable (Item : Type) : Type := inserted : Item -> string.

(** [operator<<] for [std::string]: the characters of the string. *)
#[export] Instance string_Insertable : Insertable string := fun s => s.

(** [operator<<] of [Person].  In the source [+] binds tighter than [<<]:
    the pieces written are ["Person("], [firstName + ", "],
    [lastName + ", "], the age in decimal, and [")"]. *)
#[export] Instance Person_Insertable : Insertable Person :=
  fun person =>
    ("Person(" ++ (firstName person ++ ", ") ++ (lastName person ++ ", ")
     ++ to_string (age person) ++ ")")%string.

Definition newline : string := String (ascii_of_nat 10) EmptyString.

Section Print.
Context {Item : Type} {Item_out : Insertable Item}.

(** The range-for loop of [print]; [cout] is what standard output holds. *)
Fixpoint print_loop (remaining : list Item) (cout : string) : string :=
  match remaining with
  | [] => cout
  | item :: rest => print_loop rest (cout ++ inserted item ++ " ")%string
  end.

(** [print]: the items, each followed by a space, then a newline. *)
Definition print (items : list Item) (cout : string) : string :=
  (print_loop items cout ++ newline)%string.

(** The line [print] is to write: every item followed by a space, then
    [closing]. *)
Definition line_of (closing : string) (items : list Item) : string :=
  fold_right (fun item rest => (inserted item ++ " " ++ rest)%string)
    closing items.

End Print.

(** ** Further reference notions *)

Section MoreReference.
Context {Item Product : Type}.

(** The calls a left fold of [f] makes from the accumulator value [seed]:
    each element paired with the accumulator it meets. *)
Fixpoint accumulations (f : Product -> Item -> Product) (seed : Product)
    (values : list Item) : list (storage Product * Item) :=
  match values with
  | [] => []
  | value :: rest => (holds seed, value) :: accumulations f (f seed value) rest
  end.

(** Every other element of a vector, starting with the first one unless
    [skip] is set. *)
Fixpoint every_other (skip : bool) (values : list Item) : list Item :=
  match values with
  | [] => []
  | value :: rest =>
      if skip then every_other false rest else value :: every_other true rest
  end.

(** A reducer that ignores the accumulator and returns the element. *)
Definition latest : @JS.reducer_fn Item Item :=
  fun result value => Some (result, value).

End MoreReference.

(** ** The operations on small inputs *)

Example map_indexed_small :
  JS.map_indexed [10; 20; 30] (fun item idx => item * idx) =
  Run [10; 20; 30] [(10, 0); (20, 1); (30, 2)] (Returns [0; 20; 60]).
Proof. reflexivity. Qed.

Example filter_small :
  JS.filter [4; 5; 6; 7] Z.odd = Run [4; 5; 6; 7] [4; 5; 6; 7] (Returns [5; 7]).
Proof. reflexivity. Qed.

Example filter_indexed_small :
  JS.filter_indexed [4; 5; 6; 7] (fun item idx => (idx <? 3) && Z.even item) =
  Run [4; 5; 6; 7] [(4, 0); (5, 1); (6, 2); (7, 3)] (Returns [4; 6]).
Proof. reflexivity. Qed.

Example reduce_string_small :
  JS.reduce ["ab"; "c"]%string append_in_place =
  Run ["ab"; "c"]%string
    [(holds ""%string, "ab"%string); (holds "ab"%string, "c"%string)]
    (Returns "abc"%string).
Proof. reflexivity. Qed.

Example reduce_double_small :
  JS.reduce [1; 2] (JS.by_value (fun total i => PrimFloat.add total (double_of_int i))) =
  Run [1; 2] [(indeterminate, 1)] (Undefined IndeterminateRead).
Proof. reflexivity. Qed.

(** ** Facts about the loops *)

Ltac rewrite_tests :=
  repeat match goal with
         | E : ?x = _ |- context [?x] => rewrite E
         end.

Section StructuralLoops.
Context {Item Product : Type}.

Lemma map_spec (converter : Item -> Product) values :
  JS.map values converter = Run values [] (Undefined IllFormed).
Proof. reflexivity. Qed.

Lemma filter_loop_spec (condition : Item -> bool) values remaining result calls :
  JS.filter_loop condition values remaining result calls =
  Run values (calls ++ remaining)
    (Returns (result ++ List.filter condition remaining)).
Proof.
  revert result calls.
  induction remaining as [| value rest IH]; intros result calls; simpl.
  - now rewrite !app_nil_r.
  - destruct (condition value); simpl; rewrite IH, <- !app_assoc; reflexivity.
Qed.

Lemma filter_spec (condition : Item -> bool) values :
  JS.filter values condition =
  Run values values (Returns (List.filter condition values)).
Proof. unfold JS.filter. now rewrite filter_loop_spec. Qed.
End StructuralLoops.

Section IndexLoops.
Context {Item Product : Type}.

Lemma size_nonneg (values : list Item) : 0 <= JS.size values.
Proof. unfold JS.size. lia. Qed.

Lemma size_app (prefix suffix : list Item) :
  JS.size (prefix ++ suffix) = JS.size prefix + JS.size suffix.
Proof. unfold JS.size. rewrite length_app. lia. Qed.

Lemma size_t_of_int_small i : 0 <= i <= INT_MAX -> size_t_of_int i = i.
Proof.
  unfold size_t_of_int, INT_MAX, SIZE_WIDTH. intros Hi.
  apply Z.mod_small. lia.
Qed.

Lemma size_t_of_int_range i : 0 <= size_t_of_int i.
Proof.
  unfold size_t_of_int, SIZE_WIDTH.
  apply Z.mod_pos_bound. reflexivity.
Qed.

Lemma at_in_range (values : list Item) pos :
  0 <= pos < JS.size values -> exists item, JS.at_ values pos = Returns item.
Proof.
  unfold JS.at_, JS.size. intros Hpos.
  destruct (nth_error values (Z.to_nat pos)) as [item |] eqn:E.
  - now exists item.
  - apply nth_error_None in E. lia.
Qed.

Lemma at_app_here (prefix suffix : list Item) item :
  JS.at_ (prefix ++ item :: suffix) (JS.size prefix) = Returns item.
Proof.
  unfold JS.at_, JS.size. rewrite Nat2Z.id.
  rewrite nth_error_app2 by lia. now rewrite Nat.sub_diag.
Qed.

Lemma map_indexed_loop_unfold (converter : Item -> Z -> Product)
    values idx result calls :
  JS.map_indexed_loop converter values idx result calls =
  if size_t_of_int idx <? JS.size values then
    match JS.at_ values (size_t_of_int idx) with
    | Undefined f => Run values calls (Undefined f)
    | Returns item =>
        if idx <? INT_MAX then
          JS.map_indexed_loop converter values (idx + 1)
            (result ++ [converter item idx]) (calls ++ [(item, idx)])
        else Run values (calls ++ [(item, idx)]) (Undefined SignedOverflow)
    end
  else Run values calls (Returns result).
Proof.
  funelim (JS.map_indexed_loop converter values idx result calls);
    rewrite_tests; reflexivity.
Qed.

Lemma filter_indexed_loop_unfold (condition : Item -> Z -> bool)
    values idx result calls :
  JS.filter_indexed_loop condition values idx result calls =
  if size_t_of_int idx <? JS.size values then
    match JS.at_ values (size_t_of_int idx) with
    | Undefined f => Run values calls (Undefined f)
    | Returns item =>
        match (if Bool.eqb (condition item idx) true
               then bind (JS.at_ values (size_t_of_int idx))
                      (fun kept => Returns (result ++ [kept]))
               else Returns result) with
        | Undefined f => Run values (calls ++ [(item, idx)]) (Undefined f)
        | Returns result' =>
            if idx <? INT_MAX then
              JS.filter_indexed_loop condition values (idx + 1) result'
                (calls ++ [(item, idx)])
            else Run values (calls ++ [(item, idx)]) (Undefined SignedOverflow)
        end
    end
  else Run values calls (Returns result).
Proof.
  funelim (JS.filter_indexed_loop condition values idx result calls);
    try match goal with
        | E : JS.at_ _ _ = Returns _, E' : (if _ then _ else _) = _ |- _ =>
            rewrite E in E'; simpl in E'
        end;
    rewrite_tests; simpl; rewrite_tests; reflexivity.
Qed.

Lemma at_returns_lt (values : list Item) pos item :
  0 <= pos -> JS.at_ values pos = Returns item -> pos < JS.size values.
Proof.
  unfold JS.at_, JS.size. intros Hpos E.
  destruct (nth_error values (Z.to_nat pos)) eqn:En; [| discriminate].
  assert (Z.to_nat pos < length values)%nat
    by (apply nth_error_Some; congruence).
  lia.
Qed.

(** One turn of the loops at a position that holds an element. *)
Lemma map_indexed_loop_step (converter : Item -> Z -> Product)
    values idx item result calls :
  0 <= idx <= INT_MAX ->
  JS.at_ values idx = Returns item ->
  JS.map_indexed_loop converter values idx result calls =
  if idx <? INT_MAX then
    JS.map_indexed_loop converter values (idx + 1)
      (result ++ [converter item idx]) (calls ++ [(item, idx)])
  else Run values (calls ++ [(item, idx)]) (Undefined SignedOverflow).
Proof.
  intros Hidx Hat. rewrite map_indexed_loop_unfold.
  rewrite (size_t_of_int_small Hidx), Hat.
  assert (Hlt : idx < JS.size values) by (eapply at_returns_lt; [lia | eassumption]).
  apply Z.ltb_lt in Hlt. now rewrite Hlt.
Qed.

Lemma filter_indexed_loop_step (condition : Item -> Z -> bool)
    values idx item result calls :
  0 <= idx <= INT_MAX ->
  JS.at_ values idx = Returns item ->
  JS.filter_indexed_loop condition values idx result calls =
  if idx <? INT_MAX then
    JS.filter_indexed_loop condition values (idx + 1)
      (if condition item idx then result ++ [item] else result)
      (calls ++ [(item, idx)])
  else Run values (calls ++ [(item, idx)]) (Undefined SignedOverflow).
Proof.
  intros Hidx Hat. rewrite filter_indexed_loop_unfold.
  rewrite (size_t_of_int_small Hidx), Hat.
  assert (Hlt : idx < JS.size values) by (eapply at_returns_lt; [lia | eassumption]).
  apply Z.ltb_lt in Hlt. rewrite Hlt.
  destruct (condition item idx); reflexivity.
Qed.

(** The loops leave once the counter has reached the size. *)
Lemma map_indexed_loop_exit (converter : Item -> Z -> Product)
    values idx result calls :
  0 <= idx <= INT_MAX -> JS.size values <= idx ->
  JS.map_indexed_loop converter values idx result calls =
  Run values calls (Returns result).
Proof.
  intros Hidx Hge. rewrite map_indexed_loop_unfold.
  rewrite (size_t_of_int_small Hidx).
  apply Z.ltb_ge in Hge. now rewrite Hge.
Qed.

Lemma filter_indexed_loop_exit (condition : Item -> Z -> bool)
    values idx result calls :
  0 <= idx <= INT_MAX -> JS.size values <= idx ->
  JS.filter_indexed_loop condition values idx result calls =
  Run values calls (Returns result).
Proof.
  intros Hidx Hge. rewrite filter_indexed_loop_unfold.
  rewrite (size_t_of_int_small Hidx).
  apply Z.ltb_ge in Hge. now rewrite Hge.
Qed.

(** The whole run from position [size prefix] on a vector that an [int]
    can index. *)
Lemma map_indexed_loop_spec (converter : Item -> Z -> Product) suffix :
  forall prefix result calls,
    JS.size (prefix ++ suffix) <= INT_MAX ->
    JS.map_indexed_loop converter (prefix ++ suffix) (JS.size prefix) result calls =
    Run (prefix ++ suffix)
      (calls ++ enumerate_from (JS.size prefix) suffix)
      (Returns (result ++
                List.map (apply2 converter) (enumerate_from (JS.size prefix) suffix))).
Proof.
  induction suffix as [| item suffix IH]; intros prefix result calls Hsize.
  - rewrite map_indexed_loop_exit.
    + simpl. now rewrite !app_nil_r.
    + pose proof (size_nonneg prefix). rewrite size_app in Hsize.
      pose proof (size_nonneg (@nil Item)). lia.
    + rewrite size_app. unfold JS.size at 2. simpl. lia.
  - pose proof (size_nonneg prefix) as Hp.
    pose proof (size_nonneg suffix) as Hs.
    assert (Hlen : JS.size prefix + 1 + JS.size suffix <= INT_MAX).
    { rewrite size_app in Hsize. unfold JS.size in *. simpl length in Hsize. lia. }
    rewrite (@map_indexed_loop_step _ _ _ item) by (try apply at_app_here; lia).
    assert (Hlt : (JS.size prefix <? INT_MAX) = true) by (apply Z.ltb_lt; lia).
    rewrite Hlt.
    replace (prefix ++ item :: suffix) with ((prefix ++ [item]) ++ suffix)
      by (now rewrite <- app_assoc).
    replace (JS.size prefix + 1) with (JS.size (prefix ++ [item]))
      by (rewrite size_app; reflexivity).
    rewrite IH.
    + rewrite size_app. change (JS.size [item]) with 1.
      simpl. unfold apply2 at 3. simpl. now rewrite <- !app_assoc.
    + rewrite !size_app. change (JS.size [item]) with 1. lia.
Qed.

Lemma filter_indexed_loop_spec (condition : Item -> Z -> bool) suffix :
  forall prefix result calls,
    JS.size (prefix ++ suffix) <= INT_MAX ->
    JS.filter_indexed_loop condition (prefix ++ suffix) (JS.size prefix) result calls =
    Run (prefix ++ suffix)
      (calls ++ enumerate_from (JS.size prefix) suffix)
      (Returns (result ++
                List.map fst (List.filter (apply2 condition)
                                (enumerate_from (JS.size prefix) suffix)))).
Proof.
  induction suffix as [| item suffix IH]; intros prefix result calls Hsize.
  - rewrite filter_indexed_loop_exit.
    + simpl. now rewrite !app_nil_r.
    + pose proof (size_nonneg prefix). rewrite size_app in Hsize.
      pose proof (size_nonneg (@nil Item)). lia.
    + rewrite size_app. unfold JS.size at 2. simpl. lia.
  - pose proof (size_nonneg prefix) as Hp.
    pose proof (size_nonneg suffix) as Hs.
    assert (Hlen : JS.size prefix + 1 + JS.size suffix <= INT_MAX).
    { rewrite size_app in Hsize. unfold JS.size in *. simpl length in Hsize. lia. }
    rewrite (@filter_indexed_loop_step _ _ _ item) by (try apply at_app_here; lia).
    assert (Hlt : (JS.size prefix <? INT_MAX) = true) by (apply Z.ltb_lt; lia).
    rewrite Hlt.
    replace (prefix ++ item :: suffix) with ((prefix ++ [item]) ++ suffix)
      by (now rewrite <- app_assoc).
    replace (JS.size prefix + 1) with (JS.size (prefix ++ [item]))
      by (rewrite size_app; reflexivity).
    rewrite IH.
    + rewrite size_app. change (JS.size [item]) with 1.
      simpl. unfold apply2 at 2. simpl.
      destruct (condition item (JS.size prefix)); simpl;
        now rewrite <- !app_assoc.
    + rewrite !size_app. change (JS.size [item]) with 1. lia.
Qed.

(** On a vector with more than [INT_MAX] elements the counter reaches
    [INT_MAX] with elements still ahead, and [idx++] overflows. *)
Lemma map_indexed_loop_overflow (converter : Item -> Z -> Product) values n :
  forall idx result calls,
    Z.to_nat (INT_MAX - idx) = n ->
    0 <= idx <= INT_MAX -> INT_MAX < JS.size values ->
    ending (JS.map_indexed_loop converter values idx result calls) =
    Undefined SignedOverflow.
Proof.
  induction n as [| n IH]; intros idx result calls Hn Hidx Hbig;
    destruct (@at_in_range values idx) as [item Hat]; try lia;
    rewrite (@map_indexed_loop_step _ _ _ item) by assumption;
    destruct (idx <? INT_MAX) eqn:Hlt; try reflexivity.
  - apply Z.ltb_lt in Hlt. lia.
  - apply Z.ltb_lt in Hlt. apply IH; lia.
Qed.

Lemma filter_indexed_loop_overflow (condition : Item -> Z -> bool) values n :
  forall idx result calls,
    Z.to_nat (INT_MAX - idx) = n ->
    0 <= idx <= INT_MAX -> INT_MAX < JS.size values ->
    ending (JS.filter_indexed_loop condition values idx result calls) =
    Undefined SignedOverflow.
Proof.
  induction n as [| n IH]; intros idx result calls Hn Hidx Hbig;
    destruct (@at_in_range values idx) as [item Hat]; try lia;
    rewrite (@filter_indexed_loop_step _ _ _ item) by assumption;
    destruct (idx <? INT_MAX) eqn:Hlt; try reflexivity.
  - apply Z.ltb_lt in Hlt. lia.
  - apply Z.ltb_lt in Hlt. apply IH; lia.
Qed.

(** No call ever receives an index beyond [INT_MAX]. *)
Lemma filter_indexed_loop_calls_bounded (condition : Item -> Z -> bool)
    values idx result calls :
  idx <= INT_MAX ->
  Forall (fun call => snd call <= INT_MAX) calls ->
  Forall (fun call => snd call <= INT_MAX)
    (invocations (JS.filter_indexed_loop condition values idx result calls)).
Proof.
  funelim (JS.filter_indexed_loop condition values idx result calls);
    intros Hidx Hcalls; simpl; auto.
  - apply Forall_app; split; auto.
  - match goal with IH : _ -> _ -> Forall _ _ |- _ => apply IH end.
    + pose proof (proj1 (Z.ltb_lt _ _) Hok). lia.
    + apply Forall_app; split; auto.
  - apply Forall_app; split; auto.
Qed.

(** The subscript is only evaluated below the size. *)
Lemma guarded_at_returns (values : list Item) idx :
  (size_t_of_int idx <? JS.size values) = true ->
  exists item, JS.at_ values (size_t_of_int idx) = Returns item.
Proof.
  intros Hlt. apply Z.ltb_lt in Hlt. apply at_in_range.
  pose proof (size_t_of_int_range idx). lia.
Qed.

Lemma map_indexed_loop_in_bounds (converter : Item -> Z -> Product)
    values idx result calls :
  ending (JS.map_indexed_loop converter values idx result calls) <>
  Undefined OutOfRange.
Proof.
  funelim (JS.map_indexed_loop converter values idx result calls);
    simpl; try discriminate; auto.
  destruct (guarded_at_returns _ _ Hlt) as [item Hat]. congruence.
Qed.

Lemma filter_indexed_loop_in_bounds (condition : Item -> Z -> bool)
    values idx result calls :
  ending (JS.filter_indexed_loop condition values idx result calls) <>
  Undefined OutOfRange.
Proof.
  funelim (JS.filter_indexed_loop condition values idx result calls);
    simpl; try discriminate; auto.
  - destruct (guarded_at_returns _ _ Hlt) as [item Hat]. congruence.
  - match goal with
    | E : JS.at_ _ _ = Returns _, E' : (if _ then _ else _) = _ |- _ =>
        rewrite E in E'; simpl in E'; destruct (Bool.eqb _ _) in E'; discriminate
    end.
Qed.

Lemma map_indexed_loop_vector (converter : Item -> Z -> Product)
    values idx result calls :
  vector_after (JS.map_indexed_loop converter values idx result calls) = values.
Proof.
  funelim (JS.map_indexed_loop converter values idx result calls);
    simpl; auto.
Qed.

Lemma filter_indexed_loop_vector (condition : Item -> Z -> bool)
    values idx result calls :
  vector_after (JS.filter_indexed_loop condition values idx result calls) = values.
Proof.
  funelim (JS.filter_indexed_loop condition values idx result calls);
    simpl; auto.
Qed.

(** The operations on a vector that an [int] can index. *)
Lemma map_indexed_spec (converter : Item -> Z -> Product) values :
  JS.size values <= INT_MAX ->
  JS.map_indexed values converter =
  Run values (enumerate_from 0 values)
    (Returns (List.map (apply2 converter) (enumerate_from 0 values))).
Proof.
  intros Hsize. unfold JS.map_indexed.
  apply (map_indexed_loop_spec converter values [] [] []). exact Hsize.
Qed.

Lemma filter_indexed_spec (condition : Item -> Z -> bool) values :
  JS.size values <= INT_MAX ->
  JS.filter_indexed values condition =
  Run values (enumerate_from 0 values)
    (Returns (List.map fst (List.filter (apply2 condition)
                              (enumerate_from 0 values)))).
Proof.
  intros Hsize. unfold JS.filter_indexed.
  apply (filter_indexed_loop_spec condition values [] [] []). exact Hsize.
Qed.

Lemma map_indexed_overflow (converter : Item -> Z -> Product) values :
  INT_MAX < JS.size values ->
  ending (JS.map_indexed values converter) = Undefined SignedOverflow.
Proof.
  intros Hbig. unfold JS.map_indexed.
  eapply map_indexed_loop_overflow; [reflexivity | unfold INT_MAX; lia | exact Hbig].
Qed.

Lemma filter_indexed_overflow (condition : Item -> Z -> bool) values :
  INT_MAX < JS.size values ->
  ending (JS.filter_indexed values condition) = Undefined SignedOverflow.
Proof.
  intros Hbig. unfold JS.filter_indexed.
  eapply filter_indexed_loop_overflow; [reflexivity | unfold INT_MAX; lia | exact Hbig].
Qed.
Lemma filter_indexed_index_bound (condition : Item -> Z -> bool) values item i :
  In (item, i) (invocations (JS.filter_indexed values condition)) ->
  i <= INT_MAX.
Proof.
  intros Hin.
  assert (Hb : Forall (fun call : Item * Z => snd call <= INT_MAX)
                 (invocations (JS.filter_indexed values condition))).
  { apply filter_indexed_loop_calls_bounded; [unfold INT_MAX; lia | constructor]. }
  rewrite Forall_forall in Hb. exact (Hb _ Hin).
Qed.


End IndexLoops.

Section Enumeration.
Context {Item : Type}.

Lemma enumerate_from_length (values : list Item) start :
  length (enumerate_from start values) = length values.
Proof.
  revert start. induction values as [| item rest IH]; intros start; simpl.
  - reflexivity.
  - now rewrite IH.
Qed.

Lemma enumerate_from_nth (values : list Item) :
  forall start (k : nat) item,
    nth_error values k = Some item ->
    nth_error (enumerate_from start values) k = Some (item, start + Z.of_nat k).
Proof.
  induction values as [| head rest IH]; intros start k item Hk.
  - destruct k; discriminate.
  - destruct k as [| k]; simpl in *.
    + injection Hk as ->. now rewrite Z.add_0_r.
    + rewrite (IH _ _ _ Hk). do 2 f_equal. lia.
Qed.

Lemma enumerate_from_In (values : list Item) :
  forall start item k,
    In (item, k) (enumerate_from start values) <->
    start <= k /\ nth_error values (Z.to_nat (k - start)) = Some item.
Proof.
  induction values as [| head rest IH]; intros start item k; simpl.
  - split; [tauto |]. intros [_ H]. destruct (Z.to_nat (k - start)); discriminate.
  - rewrite IH. split.
    + intros [E | [Hle Hnth]].
      * injection E as -> ->. rewrite Z.sub_diag. split; [lia | reflexivity].
      * split; [lia |].
        replace (Z.to_nat (k - start)) with (S (Z.to_nat (k - (start + 1)))) by lia.
        exact Hnth.
    + intros [Hle Hnth].
      destruct (Z.eq_dec k start) as [-> | Hne].
      * left. rewrite Z.sub_diag in Hnth. simpl in Hnth. congruence.
      * right. split; [lia |].
        replace (Z.to_nat (k - start)) with (S (Z.to_nat (k - (start + 1))))
          in Hnth by lia.
        exact Hnth.
Qed.

Lemma enumerate_from_sorted (values : list Item) :
  forall start, StronglySorted Z.lt (List.map snd (enumerate_from start values)).
Proof.
  induction values as [| head rest IH]; intros start; simpl.
  - constructor.
  - constructor; [apply IH |].
    apply Forall_forall. intros k Hk.
    apply in_map_iff in Hk. destruct Hk as [[item k'] [E Hin]].
    simpl in E. subst k'. apply enumerate_from_In in Hin. lia.
Qed.

Lemma sorted_map_filter {A : Type} (R : Z -> Z -> Prop) (g : A -> Z)
    (f : A -> bool) (l : list A) :
  StronglySorted R (List.map g l) ->
  StronglySorted R (List.map g (List.filter f l)).
Proof.
  induction l as [| a l IH]; simpl; intros Hs.
  - constructor.
  - apply StronglySorted_inv in Hs. destruct Hs as [Hs Hall].
    destruct (f a); simpl; [| now apply IH].
    constructor; [now apply IH |].
    apply Forall_forall. intros k Hk.
    rewrite Forall_forall in Hall. apply Hall.
    apply in_map_iff in Hk. destruct Hk as [c [E Hin]].
    apply filter_In in Hin. apply in_map_iff. exists c. tauto.
Qed.

Lemma filter_fst_enumerate_from (condition : Item -> bool) (values : list Item) :
  forall start,
    List.map fst (List.filter (apply2 (fun item (_ : Z) => condition item))
                    (enumerate_from start values)) =
    List.filter condition values.
Proof.
  induction values as [| head rest IH]; intros start; simpl.
  - reflexivity.
  - unfold apply2 at 1. simpl. destruct (condition head); simpl; now rewrite IH.
Qed.

(** Filtering the enumerated vector selects by position. *)
Lemma enumerate_selection (keep : Item -> Z -> bool) (values : list Item) :
  selection keep values
    (List.map fst (List.filter (apply2 keep) (enumerate_from 0 values))).
Proof.
  exists (List.map snd (List.filter (apply2 keep) (enumerate_from 0 values))).
  split; [| split].
  - apply sorted_map_filter, enumerate_from_sorted.
  - intros k. rewrite in_map_iff. split.
    + intros [[item k'] [E Hin]]. simpl in E. subst k'.
      apply filter_In in Hin. destruct Hin as [Hin Hkeep].
      apply enumerate_from_In in Hin. rewrite Z.sub_0_r in Hin.
      exists item. tauto.
    + intros [item [Hk [Hnth Hkeep]]]. exists (item, k). split; [reflexivity |].
      apply filter_In. split; [| exact Hkeep].
      apply enumerate_from_In. now rewrite Z.sub_0_r.
  - assert (Hall : Forall (fun call : Item * Z =>
                             nth_error values (Z.to_nat (snd call)) = Some (fst call))
                     (List.filter (apply2 keep) (enumerate_from 0 values))).
    { apply Forall_forall. intros [item k] Hin.
      apply filter_In in Hin. destruct Hin as [Hin _].
      apply enumerate_from_In in Hin. rewrite Z.sub_0_r in Hin. tauto. }
    induction Hall as [| call calls Hcall _ IH]; simpl; constructor; auto.
Qed.

Lemma selected_length (f : Item * Z -> bool) (values : list Item) start :
  (length (List.map fst (List.filter f (enumerate_from start values)))
   <= length values)%nat.
Proof.
  rewrite length_map, <- (enumerate_from_length values start).
  apply filter_length_le.
Qed.
End Enumeration.

Section ReduceFacts.
Context {Item Product : Type} {Product_init : DefaultInit Product}.
Variable reducer : @JS.reducer_fn Item Product.
Variable values : list Item.

Lemma fold_reduce_step_undefined (remaining : list Item) f :
  fold_left (reduce_step reducer) remaining (Undefined f) = Undefined f.
Proof. induction remaining as [| value rest IH]; simpl; auto. Qed.

Lemma reduce_loop_ending (remaining : list Item) :
  forall result calls,
    ending (JS.reduce_loop reducer values remaining result calls) =
    bind (fold_left (reduce_step reducer) remaining (Returns result)) load.
Proof.
  induction remaining as [| value rest IH]; intros result calls; simpl.
  - reflexivity.
  - destruct (reducer result value) as [[left_behind returned] |]; simpl.
    + apply IH.
    + now rewrite fold_reduce_step_undefined.
Qed.

Lemma reduce_loop_vector (remaining : list Item) :
  forall result calls,
    vector_after (JS.reduce_loop reducer values remaining result calls) = values.
Proof.
  induction remaining as [| value rest IH]; intros result calls; simpl.
  - reflexivity.
  - destruct (reducer result value) as [[left_behind returned] |]; simpl; auto.
Qed.

(** A run that returns has called the reducer on every remaining element. *)
Lemma reduce_loop_calls (remaining : list Item) :
  forall result calls total,
    ending (JS.reduce_loop reducer values remaining result calls) = Returns total ->
    List.map snd
      (invocations (JS.reduce_loop reducer values remaining result calls)) =
    List.map snd calls ++ remaining.
Proof.
  induction remaining as [| value rest IH]; intros result calls total; simpl.
  - intros _. now rewrite app_nil_r.
  - destruct (reducer result value) as [[left_behind returned] |]; simpl.
    + intros Hend. rewrite (IH _ _ _ Hend), map_app, <- app_assoc. reflexivity.
    + discriminate.
Qed.

Lemma reduce_loop_in_bounds (remaining : list Item) :
  forall result calls,
    ending (JS.reduce_loop reducer values remaining result calls) <>
    Undefined OutOfRange.
Proof.
  induction remaining as [| value rest IH]; intros result calls; simpl.
  - destruct result; discriminate.
  - destruct (reducer result value) as [[left_behind returned] |]; simpl;
      [apply IH | discriminate].
Qed.

(** With returns-new-accumulator semantics the loop is a pure left fold
    from the value the accumulator holds. *)
Lemma reduce_loop_by_value (f : Product -> Item -> Product)
    (remaining : list Item) :
  returns_new_accumulator reducer f ->
  forall result calls,
    ending (JS.reduce_loop reducer values remaining result calls) =
    bind (load result) (fun seed => Returns (fold_left f remaining seed)).
Proof.
  intros Hpure.
  induction remaining as [| value rest IH]; intros result calls; simpl.
  - destruct result; reflexivity.
  - destruct (Hpure value) as [Hread Hnew].
    destruct result as [| accumulator].
    + now rewrite Hread.
    + destruct (Hnew accumulator) as [left_behind E]. rewrite E.
      rewrite IH. reflexivity.
Qed.

End ReduceFacts.

(** A callable that takes the accumulator by value has
    returns-new-accumulator semantics. *)
Lemma by_value_returns_new_accumulator {Item Product : Type}
    (f : Product -> Item -> Product) :
  returns_new_accumulator (JS.by_value f) f.
Proof.
  intros value. split; [reflexivity |].
  intros accumulator. eexists. reflexivity.
Qed.

Lemma size_repeat {A : Type} (a : A) (n : Z) :
  0 <= n -> JS.size (repeat a (Z.to_nat n)) = n.
Proof.
  intros Hn. unfold JS.size. rewrite repeat_length. now apply Z2Nat.id.
Qed.

Lemma filter_idem {A : Type} (f : A -> bool) (l : list A) :
  List.filter f (List.filter f l) = List.filter f l.
Proof.
  induction l as [| a l IH]; simpl.
  - reflexivity.
  - destruct (f a) eqn:E; simpl; [rewrite E, IH | rewrite IH]; reflexivity.
Qed.

(** ** The properties of the specification *)

(** *** Transform *)

(** C1, as the code has it.  For every vector whose length N does not
    exceed [INT_MAX], the index-aware [map] returns a vector of length N
    whose i-th element is [converter(values[i], i)]: its counter and the
    index handed to the converter are [int]s.  An empty vector gives an
    empty vector.  Nothing is said of the element-only overload, which has
    no instantiation. *)
Theorem map_elements {Item Product : Type} (values : list Item)
    (converter_idx : Item -> Z -> Product) :
  (JS.size values <= INT_MAX ->
   exists out,
      ending (JS.map_indexed values converter_idx) = Returns out /\
      length out = length values /\
      forall i item, nth_error values i = Some item ->
                     nth_error out i = Some (converter_idx item (Z.of_nat i))) /\
  ending (JS.map_indexed (@nil Item) converter_idx) = Returns [].
Proof.
  split.
  - intros Hsize. rewrite map_indexed_spec by exact Hsize.
    exists (List.map (apply2 converter_idx) (enumerate_from 0 values)).
    split; [reflexivity |]. split.
    + now rewrite length_map, enumerate_from_length.
    + intros i item Hi.
      rewrite nth_error_map, (enumerate_from_nth _ 0 _ Hi). reflexivity.
  - rewrite map_indexed_spec; [reflexivity | discriminate].
Qed.

(** The index-aware [map] on a vector of three [int]s. *)
Lemma map_elements_witness :
  JS.size [10; 20; 30] <= INT_MAX /\
  exists out,
    ending (JS.map_indexed [10; 20; 30] (fun item idx => item + idx)) = Returns out /\
    length out = length [10; 20; 30] /\
    forall i item, nth_error [10; 20; 30] i = Some item ->
                   nth_error out i = Some (item + Z.of_nat i).
Proof.
  assert (Hsize : JS.size [10; 20; 30] <= INT_MAX) by (vm_compute; discriminate).
  split; [exact Hsize |].
  exact (proj1 (map_elements [10; 20; 30] (fun item idx => item + idx)) Hsize).
Defined.

(** C1 as stated fails on the index-aware overload: on a vector of
    [INT_MAX + 1] elements the counter overflows and no vector is returned. *)
Lemma map_indexed_oversized :
  ~ exists out,
      ending (JS.map_indexed oversized (fun _ idx => idx)) = Returns out /\
      length out = length oversized.
Proof.
  intros [out [E _]].
  rewrite map_indexed_overflow in E; [discriminate |].
  unfold oversized. rewrite size_repeat; unfold INT_MAX; lia.
Qed.

(** *** Select *)

(** C2, as the code has it.  The element-only [filter] returns exactly the
    elements for which the condition holds, in their original order: the
    result is no longer than the input and each of its elements satisfies
    the condition.  The index-aware [filter] returns exactly the elements
    whose condition holds at their position, in their original order, for
    every vector whose length does not exceed [INT_MAX]. *)
Theorem filter_selects {Item : Type} (values : list Item)
    (condition : Item -> bool) (condition_idx : Item -> Z -> bool) :
  (exists kept,
      ending (JS.filter values condition) = Returns kept /\
      selection (fun item _ => condition item) values kept /\
      (length kept <= length values)%nat /\
      Forall (fun item => condition item = true) kept) /\
  (JS.size values <= INT_MAX ->
   exists kept,
      ending (JS.filter_indexed values condition_idx) = Returns kept /\
      selection condition_idx values kept /\
      (length kept <= length values)%nat).
Proof.
  split.
  - rewrite filter_spec. exists (List.filter condition values).
    split; [reflexivity |]. split; [| split].
    + rewrite <- (filter_fst_enumerate_from condition values 0).
      apply enumerate_selection.
    + apply filter_length_le.
    + apply Forall_forall. intros item Hin. now apply filter_In in Hin.
  - intros Hsize. rewrite filter_indexed_spec by exact Hsize.
    eexists. split; [reflexivity |]. split.
    + apply enumerate_selection.
    + apply selected_length.
Qed.

(** The index-aware [filter] keeping the even positions of four [int]s. *)
Lemma filter_selects_witness :
  JS.size [4; 5; 6; 7] <= INT_MAX /\
  exists kept,
    ending (JS.filter_indexed [4; 5; 6; 7] (fun _ idx => Z.even idx)) = Returns kept /\
    selection (fun _ idx => Z.even idx) [4; 5; 6; 7] kept /\
    (length kept <= length [4; 5; 6; 7])%nat.
Proof.
  assert (Hsize : JS.size [4; 5; 6; 7] <= INT_MAX) by (vm_compute; discriminate).
  split; [exact Hsize |].
  exact (proj2 (filter_selects [4; 5; 6; 7] (fun _ => true)
                  (fun _ idx => Z.even idx)) Hsize).
Defined.

(** C2 as stated fails on the index-aware overload: on a vector of
    [INT_MAX + 1] elements no selection is returned. *)
Lemma filter_indexed_oversized :
  ~ exists kept,
      ending (JS.filter_indexed oversized (fun _ _ => true)) = Returns kept /\
      (length kept <= length oversized)%nat.
Proof.
  intros [kept [E _]].
  rewrite filter_indexed_overflow in E; [discriminate |].
  unfold oversized. rewrite size_repeat; unfold INT_MAX; lia.
Qed.

(** C5, as the code has it.  On a vector whose length does not exceed
    [INT_MAX] the index-aware [filter] calls the condition once per element,
    and the call for the element at position k receives the index k,
    whatever the condition answered for the elements before it. *)
Theorem filter_indexed_receives_position {Item : Type} (values : list Item)
    (condition : Item -> Z -> bool) :
  JS.size values <= INT_MAX ->
  length (invocations (JS.filter_indexed values condition)) = length values /\
  forall k item,
    nth_error values k = Some item ->
    nth_error (invocations (JS.filter_indexed values condition)) k =
    Some (item, Z.of_nat k).
Proof.
  intros Hsize. rewrite filter_indexed_spec by exact Hsize. simpl. split.
  - apply enumerate_from_length.
  - intros k item Hk. now rewrite (enumerate_from_nth _ 0 _ Hk).
Qed.

(** With the elements at positions 0 and 1 rejected, the call for the
    element at position 2 still receives the index 2. *)
Lemma filter_indexed_receives_position_witness :
  JS.size [4; 5; 6; 7] <= INT_MAX /\
  nth_error (invocations (JS.filter_indexed [4; 5; 6; 7] (fun item _ => 6 <=? item))) 2 =
  Some (6, 2).
Proof.
  assert (Hsize : JS.size [4; 5; 6; 7] <= INT_MAX) by (vm_compute; discriminate).
  split; [exact Hsize |].
  exact (proj2 (filter_indexed_receives_position [4; 5; 6; 7]
                  (fun item _ => 6 <=? item) Hsize) 2%nat 6 eq_refl).
Defined.

(** C5 as stated fails beyond [INT_MAX]: in a vector of [INT_MAX + 2]
    elements the element at position [INT_MAX + 1] is never handed to the
    condition with that index, which no [int] holds. *)
Lemma filter_indexed_beyond_int :
  nth_error beyond_int (Z.to_nat (INT_MAX + 1)) = Some "a"%char /\
  nth_error (invocations (JS.filter_indexed beyond_int (fun _ _ => true)))
    (Z.to_nat (INT_MAX + 1)) <>
  Some ("a"%char, Z.of_nat (Z.to_nat (INT_MAX + 1))).
Proof.
  split.
  - unfold beyond_int. apply nth_error_repeat. unfold INT_MAX. lia.
  - intros E. apply nth_error_In in E.
    apply filter_indexed_index_bound in E.
    rewrite Z2Nat.id in E by (unfold INT_MAX; lia).
    lia.
Qed.

(** C7.  Filtering the result of the element-only [filter] once more with
    the same condition returns that result again. *)
Theorem filter_idempotent {Item : Type} (values : list Item)
    (condition : Item -> bool) :
  exists kept,
    ending (JS.filter values condition) = Returns kept /\
    ending (JS.filter kept condition) = Returns kept.
Proof.
  exists (List.filter condition values).
  rewrite !filter_spec. simpl. now rewrite filter_idem.
Qed.

(** *** Fold *)

(** C3.  [reduce] ends as the left fold of the reducer over the elements in
    ascending order does, started from the default-initialized accumulator:
    each step assigns the reducer's return value to the accumulator.  In a
    run that returns, the reducer has been called once per element, in the
    order of the vector.  For a function [f] taken by value and a Product
    whose default-initialization gives the value [seed], the result is
    [fold_left f values seed]. *)
Theorem reduce_is_left_fold {Item Product : Type}
    {Product_init : DefaultInit Product} (values : list Item)
    (reducer : @JS.reducer_fn Item Product) (f : Product -> Item -> Product) :
  ending (JS.reduce values reducer) =
  bind (fold_left (reduce_step reducer) values (Returns default_init)) load /\
  (forall total,
      ending (JS.reduce values reducer) = Returns total ->
      List.map snd (invocations (JS.reduce values reducer)) = values) /\
  (forall seed,
      default_init = holds seed ->
      ending (JS.reduce values (JS.by_value f)) = Returns (fold_left f values seed)).
Proof.
  unfold JS.reduce. split; [| split].
  - apply reduce_loop_ending.
  - intros total Hend. now rewrite (reduce_loop_calls _ _ _ _ _ Hend).
  - intros seed Hseed.
    rewrite reduce_loop_by_value with (f := f)
      by apply by_value_returns_new_accumulator.
    now rewrite Hseed.
Qed.

(** Concatenation of three [std::string]s, in place and by value. *)
Lemma reduce_is_left_fold_witness :
  ending (JS.reduce ["ab"; "c"; "de"]%string append_in_place) =
    Returns "abcde"%string /\
  List.map snd (invocations (JS.reduce ["ab"; "c"; "de"]%string append_in_place)) =
    ["ab"; "c"; "de"]%string /\
  ending (JS.reduce ["ab"; "c"; "de"]%string (JS.by_value String.append)) =
    Returns (fold_left String.append ["ab"; "c"; "de"]%string EmptyString).
Proof.
  destruct (reduce_is_left_fold ["ab"; "c"; "de"]%string append_in_place
              String.append) as [Hfold [Hcalls Hvalue]].
  split; [| split].
  - rewrite Hfold. reflexivity.
  - apply (Hcalls "abcde"%string). reflexivity.
  - apply Hvalue. reflexivity.
Defined.

(** On the empty vector [reduce] returns what default-initialization left in
    the accumulator, if that is a value. *)
Lemma reduce_empty {Item Product : Type} {Product_init : DefaultInit Product}
    (reducer : @JS.reducer_fn Item Product) :
  ending (JS.reduce [] reducer) = load default_init.
Proof. reflexivity. Qed.

Lemma reduce_empty_string {Item : Type} (reducer : @JS.reducer_fn Item string) :
  ending (JS.reduce [] reducer) = Returns EmptyString.
Proof. reflexivity. Qed.

(** C4 at a numeric accumulator.  For [Product = double] the declaration
    [Product result;] leaves the accumulator indeterminate, and [reduce] on
    the empty vector returns that indeterminate value instead of 0. *)
Theorem reduce_empty_double {Item : Type} (reducer : @JS.reducer_fn Item double) :
  ending (JS.reduce [] reducer) = Undefined IndeterminateRead.
Proof. reflexivity. Qed.

(** C10.  For a reducer with returns-new-accumulator semantics [f], the
    [reduce] of the source, which hands the accumulator over by reference
    and assigns the return value to it, ends as the pure left fold of [f]
    does. *)
Theorem reduce_refines_pure_fold {Item Product : Type}
    {Product_init : DefaultInit Product}
    (reducer : @JS.reducer_fn Item Product) (f : Product -> Item -> Product) :
  returns_new_accumulator reducer f ->
  forall values : list Item,
    ending (JS.reduce values reducer) = reduce_pure f values.
Proof.
  intros Hpure values. unfold JS.reduce, reduce_pure.
  now apply reduce_loop_by_value.
Qed.

(** A reducer that also writes through the reference, on three
    [std::string]s. *)
Lemma reduce_refines_pure_fold_witness :
  returns_new_accumulator append_in_place String.append /\
  ending (JS.reduce ["ab"; "c"; "de"]%string append_in_place) =
  reduce_pure String.append ["ab"; "c"; "de"]%string.
Proof.
  assert (Hpure : returns_new_accumulator append_in_place String.append).
  { intros value. split; [reflexivity |].
    intros accumulator. eexists. reflexivity. }
  split; [exact Hpure |].
  exact (reduce_refines_pure_fold Hpure ["ab"; "c"; "de"]%string).
Defined.

(** *** The demonstration *)

(** C6 on the code.  The three vectors of [main] are as the scenario says:
    five people of age 21 or more, of those the ones at positions 0, 2 and
    4, and their names numbered 1 to 3.  The total of the ages is not 127:
    the accumulator of [reduce] is an uninitialized [double], which the
    first call of the lambda reads. *)
Theorem main_results :
  List.map age Main.people = [22; 21; 21; 24; 18; 21] /\
  Main.canDrinkAlcohol =
    Returns [ mkPerson "Butter" "Riolu" 22; mkPerson "Farmer" "Joes" 21;
              mkPerson "Juke" "Duke" 21; mkPerson "Life" "Happens" 24;
              mkPerson "Land" "Woof" 21 ] /\
  Main.everyEvenPerson =
    Returns [ mkPerson "Butter" "Riolu" 22; mkPerson "Juke" "Duke" 21;
              mkPerson "Land" "Woof" 21 ] /\
  Main.names =
    Returns [ "1. Butter Riolu"; "2. Juke Duke"; "3. Land Woof" ]%string /\
  Main.totalAge = Undefined IndeterminateRead.
Proof. repeat split; vm_compute; reflexivity. Qed.

(** Had the accumulator started at zero, the total would be 127. *)
Lemma main_total_from_zero :
  ending (JS.reduce_loop (JS.by_value Main.add_age) Main.people Main.people
            (holds 0%float) []) = Returns 127%float.
Proof. vm_compute. reflexivity. Qed.

(** *** Frame and safety *)

(** C8.  Every operation leaves the caller's vector as it found it. *)
Theorem input_unchanged {Item Product : Type}
    {Product_init : DefaultInit Product} (values : list Item)
    (converter : Item -> Product) (converter_idx : Item -> Z -> Product)
    (condition : Item -> bool) (condition_idx : Item -> Z -> bool)
    (reducer : @JS.reducer_fn Item Product) :
  vector_after (JS.map values converter) = values /\
  vector_after (JS.map_indexed values converter_idx) = values /\
  vector_after (JS.filter values condition) = values /\
  vector_after (JS.filter_indexed values condition_idx) = values /\
  vector_after (JS.reduce values reducer) = values.
Proof.
  split; [| split; [| split; [| split]]].
  - now rewrite map_spec.
  - apply map_indexed_loop_vector.
  - now rewrite filter_spec.
  - apply filter_indexed_loop_vector.
  - apply reduce_loop_vector.
Qed.

(** C9.  No operation ever reads outside its vector: the subscripts of the
    index-aware loops are evaluated below [values.size()] only, and no run
    ends in an out-of-range access. *)
Theorem no_out_of_range {Item Product : Type}
    {Product_init : DefaultInit Product} (values : list Item)
    (converter : Item -> Product) (converter_idx : Item -> Z -> Product)
    (condition : Item -> bool) (condition_idx : Item -> Z -> bool)
    (reducer : @JS.reducer_fn Item Product) :
  ending (JS.map values converter) <> Undefined OutOfRange /\
  ending (JS.map_indexed values converter_idx) <> Undefined OutOfRange /\
  ending (JS.filter values condition) <> Undefined OutOfRange /\
  ending (JS.filter_indexed values condition_idx) <> Undefined OutOfRange /\
  ending (JS.reduce values reducer) <> Undefined OutOfRange.
Proof.
  split; [| split; [| split; [| split]]].
  - rewrite map_spec. discriminate.
  - apply map_indexed_loop_in_bounds.
  - rewrite filter_spec. discriminate.
  - apply filter_indexed_loop_in_bounds.
  - apply reduce_loop_in_bounds.
Qed.

(** ** Further properties of the code *)

Section MoreEnumeration.
Context {Item Product : Type}.

Lemma map_apply2_ignore (f : Item -> Product) (values : list Item) :
  forall start,
    List.map (apply2 (fun item (_ : Z) => f item)) (enumerate_from start values) =
    List.map f values.
Proof.
  induction values as [| head rest IH]; intros start; simpl.
  - reflexivity.
  - now rewrite IH.
Qed.

Lemma enumerate_from_app (front back : list Item) :
  forall start,
    enumerate_from start (front ++ back) =
    enumerate_from start front ++ enumerate_from (start + JS.size front) back.
Proof.
  induction front as [| head rest IH]; intros start.
  - change (JS.size []) with 0. now rewrite Z.add_0_r.
  - simpl. rewrite IH. do 3 f_equal. unfold JS.size. simpl length. lia.
Qed.

Lemma map_enumerate_shift (f : Item -> Z -> Product) (values : list Item) k :
  forall start,
    List.map (apply2 f) (enumerate_from (start + k) values) =
    List.map (apply2 (fun item idx => f item (k + idx)))
      (enumerate_from start values).
Proof.
  induction values as [| head rest IH]; intros start; simpl.
  - reflexivity.
  - f_equal.
    + unfold apply2. simpl. f_equal. lia.
    + replace (start + k + 1) with (start + 1 + k) by lia. apply IH.
Qed.

Lemma filter_enumerate_shift (p : Item -> Z -> bool) (values : list Item) k :
  forall start,
    List.map fst (List.filter (apply2 p) (enumerate_from (start + k) values)) =
    List.map fst (List.filter (apply2 (fun item idx => p item (k + idx)))
                    (enumerate_from start values)).
Proof.
  induction values as [| head rest IH]; intros start; simpl.
  - reflexivity.
  - replace (start + k + 1) with (start + 1 + k) by lia.
    replace (apply2 p (head, start + k)) with (p head (k + start))
      by (unfold apply2; simpl; f_equal; lia).
    replace (apply2 (fun item idx => p item (k + idx)) (head, start))
      with (p head (k + start)) by reflexivity.
    destruct (p head (k + start)); simpl; now rewrite IH.
Qed.

Lemma filter_and {A : Type} (p q : A -> bool) (l : list A) :
  List.filter q (List.filter p l) = List.filter (fun a => p a && q a) l.
Proof.
  induction l as [| a l IH]; simpl.
  - reflexivity.
  - destruct (p a); simpl; [destruct (q a) |]; now rewrite IH.
Qed.

Lemma map_fst_enumerate_from (values : list Item) :
  forall start, List.map fst (enumerate_from start values) = values.
Proof.
  induction values as [| head rest IH]; intros start; simpl.
  - reflexivity.
  - now rewrite IH.
Qed.

Lemma map_enumerate_compose {Middle : Type} (f : Item -> Z -> Middle)
    (g : Middle -> Z -> Product) (values : list Item) :
  forall start,
    List.map (apply2 g)
      (enumerate_from start
         (List.map (apply2 f) (enumerate_from start values))) =
    List.map (apply2 (fun item idx => g (f item idx) idx))
      (enumerate_from start values).
Proof.
  induction values as [| head rest IH]; intros start; simpl.
  - reflexivity.
  - now rewrite IH.
Qed.

End MoreEnumeration.

(** X1.  On a vector of at most [INT_MAX] elements the index-aware [map]
    calls the converter once per element, in ascending order, and the call
    for the element at position k receives the index k. *)
Theorem map_indexed_receives_position {Item Product : Type}
    (values : list Item) (converter : Item -> Z -> Product) :
  JS.size values <= INT_MAX ->
  length (invocations (JS.map_indexed values converter)) = length values /\
  forall k item,
    nth_error values k = Some item ->
    nth_error (invocations (JS.map_indexed values converter)) k =
    Some (item, Z.of_nat k).
Proof.
  intros Hsize. rewrite map_indexed_spec by exact Hsize. simpl. split.
  - apply enumerate_from_length.
  - intros k item Hk. now rewrite (enumerate_from_nth _ 0 _ Hk).
Qed.

(** The converter call for the last of three elements. *)
Lemma map_indexed_receives_position_witness :
  JS.size [4; 5; 6] <= INT_MAX /\
  nth_error (invocations (JS.map_indexed [4; 5; 6] (fun item idx => item * idx))) 2 =
  Some (6, 2).
Proof.
  assert (Hsize : JS.size [4; 5; 6] <= INT_MAX) by (vm_compute; discriminate).
  split; [exact Hsize |].
  exact (proj2 (map_indexed_receives_position [4; 5; 6]
                  (fun item idx => item * idx) Hsize) 2%nat 6 eq_refl).
Defined.

(** X2.  The element-only [filter] calls its condition on every element
    exactly once, in the order of the vector, whatever the length of the
    vector and whatever the condition answers. *)
Theorem callbacks_once_in_order {Item : Type} (values : list Item)
    (condition : Item -> bool) :
  invocations (JS.filter values condition) = values.
Proof. now rewrite filter_spec. Qed.

(** X3.  The index-aware overloads return a vector exactly when the input
    has at most [INT_MAX] elements; on any longer vector both end in the
    signed overflow of their counter, whatever the callback. *)
Theorem indexed_returns_iff {Item Product : Type} (values : list Item)
    (converter : Item -> Z -> Product) (condition : Item -> Z -> bool) :
  ((exists out, ending (JS.map_indexed values converter) = Returns out) <->
   JS.size values <= INT_MAX) /\
  ((exists kept, ending (JS.filter_indexed values condition) = Returns kept) <->
   JS.size values <= INT_MAX) /\
  (ending (JS.map_indexed values converter) = Undefined SignedOverflow <->
   INT_MAX < JS.size values) /\
  (ending (JS.filter_indexed values condition) = Undefined SignedOverflow <->
   INT_MAX < JS.size values).
Proof.
  destruct (Z_le_gt_dec (JS.size values) INT_MAX) as [Hle | Hgt].
  - rewrite (map_indexed_spec converter values Hle),
      (filter_indexed_spec condition values Hle). simpl.
    repeat split; intros; try (eexists; reflexivity); try discriminate; try lia.
  - assert (Hbig : INT_MAX < JS.size values) by lia.
    rewrite (map_indexed_overflow converter values Hbig),
      (filter_indexed_overflow condition values Hbig).
    repeat split; intros; try lia; try reflexivity;
      match goal with H : exists _, _ |- _ => destruct H; discriminate end.
Qed.

(** Both overloads return on a vector of three elements. *)
Lemma indexed_returns_iff_witness :
  JS.size [4; 5; 6] <= INT_MAX /\
  (exists out, ending (JS.map_indexed [4; 5; 6] Z.add) = Returns out) /\
  (exists kept, ending (JS.filter_indexed [4; 5; 6] Z.ltb) = Returns kept).
Proof.
  assert (Hsize : JS.size [4; 5; 6] <= INT_MAX) by (vm_compute; discriminate).
  destruct (indexed_returns_iff [4; 5; 6] Z.add Z.ltb) as (Hmap & Hfilter & _).
  split; [exact Hsize |]. split.
  - apply (proj2 Hmap Hsize).
  - apply (proj2 Hfilter Hsize).
Defined.

(** X4.  Mapping, with the index-aware [map], the result of the
    element-only [filter] of a vector of at most [INT_MAX] elements: the
    converter is called on the retained elements only, in their order, each
    with its position among the retained elements, and the output holds
    their images, so it is no longer than the original vector. *)
Theorem map_after_filter {Item Product : Type} (values : list Item)
    (condition : Item -> bool) (converter_idx : Item -> Z -> Product) :
  JS.size values <= INT_MAX ->
  exists kept out,
    ending (JS.filter values condition) = Returns kept /\
    ending (JS.map_indexed kept converter_idx) = Returns out /\
    List.map fst (invocations (JS.map_indexed kept converter_idx)) = kept /\
    Forall (fun item => In item values /\ condition item = true) kept /\
    (forall j item,
        nth_error kept j = Some item ->
        nth_error out j = Some (converter_idx item (Z.of_nat j))) /\
    (length out <= length values)%nat.
Proof.
  intros Hsize.
  exists (List.filter condition values).
  rewrite filter_spec. cbn [ending].
  assert (Hkept : JS.size (List.filter condition values) <= INT_MAX).
  { pose proof (filter_length_le condition values). unfold JS.size in *. lia. }
  rewrite map_indexed_spec by exact Hkept. cbn [ending invocations].
  eexists. split; [reflexivity |]. split; [reflexivity |].
  split; [apply map_fst_enumerate_from |]. split; [| split].
  - apply Forall_forall. intros item Hin. now apply filter_In in Hin.
  - intros j item Hj.
    rewrite nth_error_map, (enumerate_from_nth _ 0 _ Hj). reflexivity.
  - rewrite length_map, enumerate_from_length. apply filter_length_le.
Qed.

(** The odd ones of four [int]s, each multiplied by its new position. *)
Lemma map_after_filter_witness :
  JS.size [4; 5; 6; 7] <= INT_MAX /\
  exists kept out,
    ending (JS.filter [4; 5; 6; 7] Z.odd) = Returns kept /\
    ending (JS.map_indexed kept Z.mul) = Returns out /\
    List.map fst (invocations (JS.map_indexed kept Z.mul)) = kept /\
    Forall (fun item => In item [4; 5; 6; 7] /\ Z.odd item = true) kept /\
    (forall j item,
        nth_error kept j = Some item ->
        nth_error out j = Some (item * Z.of_nat j)) /\
    (length out <= length [4; 5; 6; 7])%nat.
Proof.
  assert (Hsize : JS.size [4; 5; 6; 7] <= INT_MAX) by (vm_compute; discriminate).
  split; [exact Hsize |].
  exact (map_after_filter [4; 5; 6; 7] Z.odd Z.mul Hsize).
Defined.

(** X5.  On a vector of at most [INT_MAX] elements two index-aware [map]s
    in a row give what one index-aware [map] gives whose converter applies
    the second converter to the result of the first, both with the index of
    the element. *)
Theorem map_fusion {Item Middle Product : Type} (values : list Item)
    (first : Item -> Z -> Middle) (second : Middle -> Z -> Product) :
  JS.size values <= INT_MAX ->
  exists middle,
    ending (JS.map_indexed values first) = Returns middle /\
    ending (JS.map_indexed middle second) =
    ending (JS.map_indexed values
              (fun item idx => second (first item idx) idx)).
Proof.
  intros Hsize. rewrite !map_indexed_spec by exact Hsize. cbn [ending].
  eexists. split; [reflexivity |].
  rewrite map_indexed_spec.
  - cbn [ending]. now rewrite map_enumerate_compose.
  - unfold JS.size in *. now rewrite length_map, enumerate_from_length.
Qed.

(** Adding the index and then multiplying by it, on three [int]s. *)
Lemma map_fusion_witness :
  JS.size [4; 5; 6] <= INT_MAX /\
  exists middle,
    ending (JS.map_indexed [4; 5; 6] Z.add) = Returns middle /\
    ending (JS.map_indexed middle Z.mul) =
    ending (JS.map_indexed [4; 5; 6] (fun item idx => (item + idx) * idx)).
Proof.
  assert (Hsize : JS.size [4; 5; 6] <= INT_MAX) by (vm_compute; discriminate).
  split; [exact Hsize |].
  exact (map_fusion [4; 5; 6] Z.add Z.mul Hsize).
Defined.

(** X6.  The element-only [filter] returns its whole input exactly when every
    element satisfies the condition, and the empty vector exactly when no
    element does. *)
Theorem filter_all_or_none {Item : Type} (values : list Item)
    (condition : Item -> bool) :
  (ending (JS.filter values condition) = Returns values <->
   forall item, In item values -> condition item = true) /\
  (ending (JS.filter values condition) = Returns [] <->
   forall item, In item values -> condition item = false).
Proof.
  rewrite filter_spec. simpl. split; split.
  - intros E item Hin. injection E as E.
    rewrite <- E in Hin. now apply filter_In in Hin.
  - intros Hall. f_equal.
    rewrite (filter_ext_in condition (fun _ => true) values Hall).
    apply filter_true.
  - intros E item Hin. injection E as E.
    destruct (condition item) eqn:Hc; [| reflexivity].
    assert (Hkept : In item (List.filter condition values))
      by (apply filter_In; tauto).
    rewrite E in Hkept. destruct Hkept.
  - intros Hnone. f_equal.
    rewrite (filter_ext_in condition (fun _ => false) values Hnone).
    apply filter_false.
Qed.

(** Three odd numbers pass [Z.odd]; none of them passes [Z.even]. *)
Lemma filter_all_or_none_witness :
  ending (JS.filter [3; 5; 7] Z.odd) = Returns [3; 5; 7] /\
  ending (JS.filter [3; 5; 7] Z.even) = Returns [].
Proof.
  split.
  - apply (proj1 (filter_all_or_none [3; 5; 7] Z.odd)).
    intros item [E | [E | [E | []]]]; subst item; reflexivity.
  - apply (proj2 (filter_all_or_none [3; 5; 7] Z.even)).
    intros item [E | [E | [E | []]]]; subst item; reflexivity.
Defined.

(** X7.  Two element-only [filter]s in a row can be swapped, and give what
    one [filter] with the conjunction of the conditions gives. *)
Theorem filter_commutes {Item : Type} (values : list Item)
    (p q : Item -> bool) :
  exists kept_p kept_q,
    ending (JS.filter values p) = Returns kept_p /\
    ending (JS.filter values q) = Returns kept_q /\
    ending (JS.filter kept_p q) = ending (JS.filter kept_q p) /\
    ending (JS.filter kept_p q) =
    ending (JS.filter values (fun item => p item && q item)).
Proof.
  exists (List.filter p values), (List.filter q values).
  rewrite !filter_spec. simpl. rewrite !filter_and.
  repeat split. f_equal. apply filter_ext. intros item. apply andb_comm.
Qed.

(** X8.  On a vector of at most [INT_MAX] elements the index-aware
    [filter] with a condition that ignores the index returns what the
    element-only [filter] returns. *)
Theorem overloads_agree {Item : Type} (values : list Item)
    (condition : Item -> bool) :
  JS.size values <= INT_MAX ->
  ending (JS.filter_indexed values (fun item _ => condition item)) =
  ending (JS.filter values condition).
Proof.
  intros Hsize.
  rewrite filter_indexed_spec by exact Hsize.
  rewrite filter_spec. simpl.
  now rewrite filter_fst_enumerate_from.
Qed.

(** The two [filter] overloads on four [int]s. *)
Lemma overloads_agree_witness :
  JS.size [4; 5; 6; 7] <= INT_MAX /\
  ending (JS.filter_indexed [4; 5; 6; 7] (fun item _ => Z.odd item)) =
  ending (JS.filter [4; 5; 6; 7] Z.odd).
Proof.
  assert (Hsize : JS.size [4; 5; 6; 7] <= INT_MAX) by (vm_compute; discriminate).
  split; [exact Hsize |].
  exact (overloads_agree [4; 5; 6; 7] Z.odd Hsize).
Defined.

(** X10.  The index-aware [map] of a concatenation of at most [INT_MAX]
    elements returns the concatenation of the [map]s of the parts, the
    converter of the second part seeing its indices shifted by the size of
    the first part. *)
Theorem map_concatenation {Item Product : Type} (front back : list Item)
    (converter_idx : Item -> Z -> Product) :
  JS.size (front ++ back) <= INT_MAX ->
  exists out_front out_back,
    ending (JS.map_indexed front converter_idx) = Returns out_front /\
    ending (JS.map_indexed back
              (fun item idx => converter_idx item (JS.size front + idx))) =
      Returns out_back /\
    ending (JS.map_indexed (front ++ back) converter_idx) =
      Returns (out_front ++ out_back).
Proof.
  intros Hsize.
  pose proof (size_nonneg front). pose proof (size_nonneg back).
  rewrite size_app in Hsize.
  rewrite !map_indexed_spec by (rewrite ?size_app; lia). simpl.
  do 2 eexists. split; [reflexivity |]. split; [reflexivity |].
  rewrite enumerate_from_app, map_app. do 2 f_equal.
  apply map_enumerate_shift.
Qed.

(** Two and one [int]s, with the index added to each element. *)
Lemma map_concatenation_witness :
  JS.size ([4; 5] ++ [6]) <= INT_MAX /\
  exists out_front out_back,
    ending (JS.map_indexed [4; 5] Z.add) = Returns out_front /\
    ending (JS.map_indexed [6] (fun item idx => item + (JS.size [4; 5] + idx))) =
      Returns out_back /\
    ending (JS.map_indexed ([4; 5] ++ [6]) Z.add) = Returns (out_front ++ out_back).
Proof.
  assert (Hsize : JS.size ([4; 5] ++ [6]) <= INT_MAX) by (vm_compute; discriminate).
  split; [exact Hsize |].
  exact (map_concatenation [4; 5] [6] Z.add Hsize).
Defined.

(** X11.  [filter] of a concatenation is the concatenation of the
    [filter]s; for the index-aware overload the condition of the second
    part sees its indices shifted by the size of the first part. *)
Theorem filter_concatenation {Item : Type} (front back : list Item)
    (condition : Item -> bool) (condition_idx : Item -> Z -> bool) :
  (exists kept_front kept_back,
      ending (JS.filter front condition) = Returns kept_front /\
      ending (JS.filter back condition) = Returns kept_back /\
      ending (JS.filter (front ++ back) condition) =
        Returns (kept_front ++ kept_back)) /\
  (JS.size (front ++ back) <= INT_MAX ->
   exists kept_front kept_back,
      ending (JS.filter_indexed front condition_idx) = Returns kept_front /\
      ending (JS.filter_indexed back
                (fun item idx => condition_idx item (JS.size front + idx))) =
        Returns kept_back /\
      ending (JS.filter_indexed (front ++ back) condition_idx) =
        Returns (kept_front ++ kept_back)).
Proof.
  split.
  - exists (List.filter condition front), (List.filter condition back).
    rewrite !filter_spec. simpl. now rewrite filter_app.
  - intros Hsize.
    pose proof (size_nonneg front). pose proof (size_nonneg back).
    rewrite size_app in Hsize.
    rewrite !filter_indexed_spec by (rewrite ?size_app; lia). simpl.
    do 2 eexists. split; [reflexivity |]. split; [reflexivity |].
    rewrite enumerate_from_app, filter_app, map_app. do 2 f_equal.
    apply filter_enumerate_shift.
Qed.

(** Keeping the positions below 2 of two and two [int]s. *)
Lemma filter_concatenation_witness :
  JS.size ([4; 5] ++ [6; 7]) <= INT_MAX /\
  exists kept_front kept_back,
    ending (JS.filter_indexed [4; 5] (fun _ idx => idx <? 2)) = Returns kept_front /\
    ending (JS.filter_indexed [6; 7] (fun _ idx => JS.size [4; 5] + idx <? 2)) =
      Returns kept_back /\
    ending (JS.filter_indexed ([4; 5] ++ [6; 7]) (fun _ idx => idx <? 2)) =
      Returns (kept_front ++ kept_back).
Proof.
  assert (Hsize : JS.size ([4; 5] ++ [6; 7]) <= INT_MAX)
    by (vm_compute; discriminate).
  split; [exact Hsize |].
  exact (proj2 (filter_concatenation [4; 5] [6; 7] Z.odd (fun _ idx => idx <? 2))
           Hsize).
Defined.

Section MoreReduce.
Context {Item Product : Type}.

Lemma reduce_loop_by_value_calls (f : Product -> Item -> Product)
    (values remaining : list Item) :
  forall accumulator calls,
    invocations (JS.reduce_loop (JS.by_value f) values remaining
                   (holds accumulator) calls) =
    calls ++ accumulations f accumulator remaining.
Proof.
  induction remaining as [| value rest IH]; intros accumulator calls; simpl.
  - now rewrite app_nil_r.
  - rewrite IH, <- app_assoc. reflexivity.
Qed.

Lemma accumulations_length (f : Product -> Item -> Product) (values : list Item) :
  forall seed, length (accumulations f seed values) = length values.
Proof.
  induction values as [| value rest IH]; intros seed; simpl; auto.
Qed.

Lemma accumulations_nth (f : Product -> Item -> Product) (values : list Item) :
  forall seed k item,
    nth_error values k = Some item ->
    nth_error (accumulations f seed values) k =
    Some (holds (fold_left f (firstn k values) seed), item).
Proof.
  induction values as [| value rest IH]; intros seed k item Hk.
  - destruct k; discriminate.
  - destruct k as [| k]; simpl in *.
    + now injection Hk as ->.
    + now apply IH.
Qed.

(** After the first assignment the accumulator holds a value. *)
Lemma reduce_loop_calls_hold (reducer : @JS.reducer_fn Item Product)
    (values remaining : list Item) :
  forall accumulator calls,
    exists later,
      invocations (JS.reduce_loop reducer values remaining
                     (holds accumulator) calls) = calls ++ later /\
      Forall (fun call => exists held, fst call = holds held) later.
Proof.
  induction remaining as [| value rest IH]; intros accumulator calls; simpl.
  - exists []. split; [now rewrite app_nil_r | constructor].
  - destruct (reducer (holds accumulator) value) as [[left_behind returned] |].
    + destruct (IH returned (calls ++ [(holds accumulator, value)]))
        as [later [E Hlater]].
      exists ((holds accumulator, value) :: later). split.
      * rewrite E, <- app_assoc. reflexivity.
      * constructor; [now exists accumulator | exact Hlater].
    + exists [(holds accumulator, value)]. split; [reflexivity |].
      constructor; [now exists accumulator | constructor].
Qed.

Lemma reduce_loop_total (reducer : @JS.reducer_fn Item Product)
    (values remaining : list Item) :
  (forall result value, reducer result value <> None) ->
  forall accumulator calls,
    exists total,
      ending (JS.reduce_loop reducer values remaining (holds accumulator) calls) =
      Returns total.
Proof.
  intros Htotal.
  induction remaining as [| value rest IH]; intros accumulator calls; simpl.
  - now exists accumulator.
  - destruct (reducer (holds accumulator) value) as [[left_behind returned] |] eqn:E.
    + apply IH.
    + now apply Htotal in E.
Qed.

Lemma fold_left_kept (f : Product -> Item -> Product) (p : Item -> bool)
    (values : list Item) :
  forall seed,
    fold_left f (List.filter p values) seed =
    fold_left (fun accumulator item =>
                 if p item then f accumulator item else accumulator) values seed.
Proof.
  induction values as [| value rest IH]; intros seed; simpl; auto.
  destruct (p value); simpl; auto.
Qed.

End MoreReduce.

(** X13.  Only the first call of the reducer can meet an accumulator that
    holds no value: every later call receives the value the call before it
    returned.  Hence a reducer that never reads an accumulator without a
    value makes [reduce] return on every non-empty vector, whatever
    default-initialization does. *)
Theorem reduce_first_call_only {Item Product : Type}
    {Product_init : DefaultInit Product} (values : list Item)
    (reducer : @JS.reducer_fn Item Product) :
  (forall k call,
      nth_error (invocations (JS.reduce values reducer)) (S k) = Some call ->
      exists held, fst call = holds held) /\
  ((forall result value, reducer result value <> None) ->
   values <> [] ->
   exists total, ending (JS.reduce values reducer) = Returns total).
Proof.
  unfold JS.reduce. split.
  - intros k call Hk. destruct values as [| value rest]; simpl in Hk.
    + destruct k; discriminate.
    + destruct (reducer default_init value) as [[left_behind returned] |].
      * destruct (reduce_loop_calls_hold reducer (value :: rest) rest returned
                    [(default_init, value)]) as [later [E Hlater]].
        rewrite E in Hk. simpl in Hk.
        rewrite Forall_forall in Hlater. apply Hlater.
        eapply nth_error_In. exact Hk.
      * destruct k; discriminate.
  - intros Htotal Hne. destruct values as [| value rest]; [congruence |]. simpl.
    destruct (reducer default_init value) as [[left_behind returned] |] eqn:E.
    + now apply reduce_loop_total.
    + now apply Htotal in E.
Qed.

(** The reducer that returns the element, on two [double]s. *)
Lemma reduce_first_call_only_witness :
  (forall (result : storage double) (value : double), latest result value <> None) /\
  [1.5; 2.5]%float <> [] /\
  exists total, ending (JS.reduce [1.5; 2.5]%float latest) = Returns total.
Proof.
  assert (Htotal : forall (result : storage double) (value : double),
             latest result value <> None) by discriminate.
  assert (Hne : [1.5; 2.5]%float <> []) by discriminate.
  split; [exact Htotal |]. split; [exact Hne |].
  exact (proj2 (reduce_first_call_only [1.5; 2.5]%float latest) Htotal Hne).
Defined.

(** X14.  With a Product that default-initialization gives the value
    [seed] and a reducer [f] taken by value, the k-th call of the reducer
    receives the left fold of [f] over the k elements before it, together
    with the k-th element; there is one call per element. *)
Theorem reduce_call_accumulators {Item Product : Type}
    {Product_init : DefaultInit Product} (values : list Item)
    (f : Product -> Item -> Product) (seed : Product) :
  default_init = holds seed ->
  length (invocations (JS.reduce values (JS.by_value f))) = length values /\
  forall k item,
    nth_error values k = Some item ->
    nth_error (invocations (JS.reduce values (JS.by_value f))) k =
    Some (holds (fold_left f (firstn k values) seed), item).
Proof.
  intros Hinit. unfold JS.reduce. rewrite Hinit, reduce_loop_by_value_calls.
  simpl. split.
  - apply accumulations_length.
  - intros k item Hk. now apply accumulations_nth.
Qed.

(** The third call of a concatenation of [std::string]s. *)
Lemma reduce_call_accumulators_witness :
  @default_init string _ = holds EmptyString /\
  nth_error (invocations (JS.reduce ["ab"; "c"; "de"]%string
                            (JS.by_value String.append))) 2 =
  Some (holds "abc"%string, "de"%string).
Proof.
  split; [reflexivity |].
  exact (proj2 (reduce_call_accumulators ["ab"; "c"; "de"]%string
                  String.append eq_refl) 2%nat "de"%string eq_refl).
Defined.

(** X15.  With a Product that default-initialization gives a value and a
    reducer [f] taken by value, [reduce] of a concatenation continues the
    fold of the first part over the second part. *)
Theorem reduce_concatenation {Item Product : Type}
    {Product_init : DefaultInit Product} (front back : list Item)
    (f : Product -> Item -> Product) (seed : Product) :
  default_init = holds seed ->
  exists partial,
    ending (JS.reduce front (JS.by_value f)) = Returns partial /\
    ending (JS.reduce (front ++ back) (JS.by_value f)) =
    Returns (fold_left f back partial).
Proof.
  intros Hinit. exists (fold_left f front seed). unfold JS.reduce.
  rewrite !reduce_loop_by_value with (f := f)
    by apply by_value_returns_new_accumulator.
  rewrite Hinit. simpl. now rewrite fold_left_app.
Qed.

(** Two and one [std::string]s. *)
Lemma reduce_concatenation_witness :
  @default_init string _ = holds EmptyString /\
  exists partial,
    ending (JS.reduce ["ab"; "c"]%string (JS.by_value String.append)) =
      Returns partial /\
    ending (JS.reduce (["ab"; "c"]%string ++ ["de"]%string)
              (JS.by_value String.append)) =
      Returns (fold_left String.append ["de"]%string partial).
Proof.
  split; [reflexivity |].
  exact (reduce_concatenation ["ab"; "c"]%string ["de"]%string
           String.append eq_refl).
Defined.

(** X16.  Reducing the result of the element-only [filter] with a reducer
    taken by value ends as one [reduce] over the original vector does whose
    reducer leaves the accumulator as it is on the elements the condition
    rejects, for every Product type. *)
Theorem reduce_after_filter {Item Product : Type}
    {Product_init : DefaultInit Product} (values : list Item)
    (condition : Item -> bool) (f : Product -> Item -> Product) :
  exists kept,
    ending (JS.filter values condition) = Returns kept /\
    ending (JS.reduce kept (JS.by_value f)) =
    ending (JS.reduce values
              (JS.by_value (fun accumulator item =>
                              if condition item then f accumulator item
                              else accumulator))).
Proof.
  exists (List.filter condition values). rewrite filter_spec. simpl.
  split; [reflexivity |]. unfold JS.reduce.
  rewrite reduce_loop_by_value with (f := f)
    by apply by_value_returns_new_accumulator.
  rewrite reduce_loop_by_value
    with (f := fun accumulator item =>
                 if condition item then f accumulator item else accumulator)
    by apply by_value_returns_new_accumulator.
  destruct default_init; simpl; [reflexivity |].
  now rewrite fold_left_kept.
Qed.

Section PrintFacts.
Context {Item : Type} {Item_out : Insertable Item}.

Lemma string_app_assoc (a b c : string) :
  ((a ++ b) ++ c = a ++ (b ++ c))%string.
Proof. induction a as [| ch a IH]; simpl; [reflexivity | now rewrite IH]. Qed.

Lemma string_app_nil_r (a : string) : (a ++ "" = a)%string.
Proof. induction a as [| ch a IH]; simpl; [reflexivity | now rewrite IH]. Qed.

Lemma print_loop_spec (remaining : list Item) :
  forall cout,
    print_loop remaining cout = (cout ++ line_of "" remaining)%string.
Proof.
  induction remaining as [| item rest IH]; intros cout; simpl.
  - now rewrite string_app_nil_r.
  - rewrite IH, !string_app_assoc. reflexivity.
Qed.

Lemma line_of_closing (items : list Item) (closing : string) :
  (line_of "" items ++ closing = line_of closing items)%string.
Proof.
  induction items as [| item rest IH]; simpl.
  - reflexivity.
  - rewrite string_app_assoc. f_equal. simpl. f_equal. exact IH.
Qed.

Lemma line_of_rendered (items : list Item) (closing : string) :
  line_of closing (List.map inserted items) = line_of closing items.
Proof.
  induction items as [| item rest IH]; simpl.
  - reflexivity.
  - change (inserted (inserted item)) with (inserted item).
    now rewrite IH.
Qed.

End PrintFacts.

(** X17.  [print] only appends to standard output, and what it appends
    does not depend on what was written before: every item followed by one
    space, the last one too, and then a newline; for an empty vector just
    the newline. *)
Theorem print_appends {Item : Type} {Item_out : Insertable Item}
    (items : list Item) (cout : string) :
  print items cout = (cout ++ print items "")%string /\
  print items "" =
  fold_right (fun item rest => (inserted item ++ " " ++ rest)%string)
    newline items /\
  print (@nil Item) cout = (cout ++ newline)%string.
Proof.
  unfold print. rewrite !print_loop_spec. simpl.
  rewrite string_app_assoc, line_of_closing. repeat split.
  now rewrite string_app_nil_r.
Qed.

(** X18.  Printing a vector of at most [INT_MAX] items writes what
    printing the vector of their renderings writes, the renderings being
    obtained with the index-aware [map]. *)
Theorem print_rendered {Item : Type} {Item_out : Insertable Item}
    (items : list Item) (cout : string) :
  JS.size items <= INT_MAX ->
  exists rendered : list string,
    ending (JS.map_indexed items (fun item _ => inserted item)) =
      Returns rendered /\
    print rendered cout = print items cout.
Proof.
  intros Hsize. rewrite map_indexed_spec by exact Hsize. cbn [ending].
  eexists. split; [reflexivity |].
  rewrite map_apply2_ignore. unfold print. rewrite !print_loop_spec.
  now rewrite line_of_rendered.
Qed.

(** The people of [main] and their renderings. *)
Lemma print_rendered_witness :
  JS.size Main.people <= INT_MAX /\
  exists rendered : list string,
    ending (JS.map_indexed Main.people (fun item _ => inserted item)) =
      Returns rendered /\
    print rendered EmptyString = print Main.people EmptyString.
Proof.
  assert (Hsize : JS.size Main.people <= INT_MAX) by (vm_compute; discriminate).
  split; [exact Hsize |].
  exact (print_rendered Main.people EmptyString Hsize).
Defined.

Section EveryOther.
Context {Item : Type}.

Lemma rem_2_even (i : Z) : 0 <= i -> (Z.rem i 2 =? 0) = Z.even i.
Proof.
  intros Hi. rewrite Z.rem_mod_nonneg by lia. rewrite Zmod_even.
  destruct (Z.even i); reflexivity.
Qed.

Lemma filter_even_positions (values : list Item) :
  forall start,
    0 <= start ->
    List.map fst
      (List.filter (apply2 (fun (_ : Item) idx => Z.rem idx 2 =? 0))
         (enumerate_from start values)) =
    every_other (Z.odd start) values.
Proof.
  induction values as [| value rest IH]; intros start Hstart.
  - reflexivity.
  - cbn [enumerate_from List.filter].
    replace (apply2 (fun (_ : Item) idx => Z.rem idx 2 =? 0) (value, start))
      with (Z.even start) by (unfold apply2; simpl; now rewrite rem_2_even).
    replace (start + 1) with (Z.succ start) by lia.
    destruct (Z.even start) eqn:E; cbn [List.map fst];
      rewrite IH by lia; rewrite Z.odd_succ, E, <- Z.negb_even, E; reflexivity.
Qed.

Lemma every_other_nth (values : list Item) :
  forall j,
    nth_error (every_other false values) j = nth_error values (2 * j) /\
    nth_error (every_other true values) j = nth_error values (2 * j + 1).
Proof.
  induction values as [| value rest IH]; intros j.
  - simpl. destruct j; simpl; split; try reflexivity.
    all: now destruct (j + S (j + 0) + 1)%nat.
  - split.
    + destruct j as [| j]; [reflexivity |].
      change (every_other false (value :: rest))
        with (value :: every_other true rest).
      replace (2 * S j)%nat with (S (2 * j + 1)) by lia.
      simpl nth_error at 1 2. apply IH.
    + change (every_other true (value :: rest)) with (every_other false rest).
      replace (2 * j + 1)%nat with (S (2 * j)) by lia.
      simpl nth_error at 2. apply IH.
Qed.

Lemma every_other_length (values : list Item) :
  length (every_other false values) = Nat.div2 (S (length values)) /\
  length (every_other true values) = Nat.div2 (length values).
Proof.
  induction values as [| value rest [IHkeep IHskip]]; simpl.
  - split; reflexivity.
  - split; [now rewrite IHskip | exact IHkeep].
Qed.

End EveryOther.

(** X19.  The condition of the bouncer in [main], [idx % 2 == 0], makes the
    index-aware [filter] keep the elements at the even positions: the j-th
    person let in is the one at position 2j of the queue, and of N people
    the upper half of N/2 get in. *)
Theorem every_even_person {Item : Type} (values : list Item) :
  JS.size values <= INT_MAX ->
  exists kept,
    ending (JS.filter_indexed values (fun _ idx => Z.rem idx 2 =? 0)) =
      Returns kept /\
    (forall j, nth_error kept j = nth_error values (2 * j)) /\
    length kept = ((length values + 1) / 2)%nat.
Proof.
  intros Hsize. rewrite filter_indexed_spec by exact Hsize. simpl.
  eexists. split; [reflexivity |].
  rewrite filter_even_positions by lia. simpl. split.
  - intros j. apply every_other_nth.
  - rewrite (proj1 (every_other_length values)), Nat.div2_div.
    now rewrite Nat.add_1_r.
Qed.

(** Five people in the queue. *)
Lemma every_even_person_witness :
  JS.size [10; 11; 12; 13; 14] <= INT_MAX /\
  exists kept,
    ending (JS.filter_indexed [10; 11; 12; 13; 14] (fun _ idx => Z.rem idx 2 =? 0)) =
      Returns kept /\
    (forall j, nth_error kept j = nth_error [10; 11; 12; 13; 14] (2 * j)) /\
    length kept = ((length [10; 11; 12; 13; 14] + 1) / 2)%nat.
Proof.
  assert (Hsize : JS.size [10; 11; 12; 13; 14] <= INT_MAX)
    by (vm_compute; discriminate).
  split; [exact Hsize |].
  exact (every_even_person [10; 11; 12; 13; 14] Hsize).
Defined.

(** X20.  The three calls of [main] that lead to [names], on any queue of
    at most [INT_MAX] people: of the people of age 21 or more, in their
    order, every other one is named, starting with the first, and the j-th
    name (from 0) is the decimal j + 1, a dot and a space, then the first
    and the last name of the adult at position 2j. *)
Theorem names_of_any_queue (people : list Person) :
  JS.size people <= INT_MAX ->
  Main.names = queue_names Main.people /\
  exists adults names,
    ending (JS.filter people (fun dude => age dude >=? 21)) = Returns adults /\
    queue_names people = Returns names /\
    length names = ((length adults + 1) / 2)%nat /\
    forall j dude,
      nth_error adults (2 * j) = Some dude ->
      nth_error names j =
      Some (to_string (Z.of_nat j + 1) ++ ". " ++ firstName dude ++ " "
            ++ lastName dude)%string.
Proof.
  intros Hsize. split; [reflexivity |].
  unfold queue_names. rewrite filter_spec. cbn [ending bind].
  set (adults := List.filter (fun dude => age dude >=? 21) people).
  assert (Hadults : (length adults <= length people)%nat)
    by apply filter_length_le.
  assert (Hsize_adults : JS.size adults <= INT_MAX)
    by (unfold JS.size in *; lia).
  rewrite filter_indexed_spec by exact Hsize_adults. cbn [ending bind].
  rewrite filter_even_positions by lia. cbn [Z.odd].
  destruct (every_other_length adults) as [Hlen _].
  assert (Hsize_kept : JS.size (every_other false adults) <= INT_MAX).
  { unfold JS.size in *. rewrite Hlen, Nat.div2_div.
    assert (((S (length adults)) / 2 <= length adults)%nat)
      by (destruct (length adults); [reflexivity | apply Nat.Div0.div_le_upper_bound; lia]).
    lia. }
  rewrite map_indexed_spec by exact Hsize_kept. cbn [ending].
  exists adults. eexists. split; [reflexivity |]. split; [reflexivity |]. split.
  - rewrite length_map, enumerate_from_length, Hlen, Nat.div2_div.
    now rewrite Nat.add_1_r.
  - intros j dude Hj.
    rewrite <- (proj1 (every_other_nth adults j)) in Hj.
    rewrite nth_error_map, (enumerate_from_nth _ 0 _ Hj). reflexivity.
Qed.

(** The queue of [main]. *)
Lemma names_of_any_queue_witness :
  JS.size Main.people <= INT_MAX /\
  exists adults names,
    ending (JS.filter Main.people (fun dude => age dude >=? 21)) = Returns adults /\
    queue_names Main.people = Returns names /\
    length names = ((length adults + 1) / 2)%nat /\
    forall j dude,
      nth_error adults (2 * j) = Some dude ->
      nth_error names j =
      Some (to_string (Z.of_nat j + 1) ++ ". " ++ firstName dude ++ " "
            ++ lastName dude)%string.
Proof.
  assert (Hsize : JS.size Main.people <= INT_MAX) by (vm_compute; discriminate).
  split; [exact Hsize |].
  exact (proj2 (names_of_any_queue Main.people Hsize)).
Defined.

(** The rendering of a [Person] and a printed line of [std::string]s. *)
Example person_rendering :
  inserted (mkPerson "Butter" "Riolu" 22) = "Person(Butter, Riolu, 22)"%string.
Proof. reflexivity. Qed.

Example print_small :
  print ["1. Butter Riolu"; "2. Juke Duke"]%string "queue: "%string =
  ("queue: 1. Butter Riolu 2. Juke Duke " ++ newline)%string.
Proof. reflexivity. Qed.
